(** * iorejson: the ReJSON facade over an ioredis client (lib/rejson.js)

    A shallow embedding of [class Rejson extends Redis] and of the part of
    the JavaScript runtime its methods rely on ([JSON.stringify],
    [JSON.parse], [ToString], lodash's [map], [Promise.prototype.then]),
    followed by the properties of the marshaling contracts.

    Modelling conventions.
    - JavaScript strings are sequences of UTF-16 code units ([jsstring]).
      Property names of the program itself (the command table, the keys of
      [this.cmds]) are plain [string]s.
    - Numbers are exact decimals [m * 10^e] together with [NaN] and the two
      infinities; binary rounding is not modelled.
    - Document values ([jsval]) are finite trees: no cyclic objects, no
      functions, no [toJSON] methods, no BigInt.  On such values
      [JSON.stringify] never throws.  The values outside them that
      [JSON.stringify] treats differently are those of [anyval].
    - A promise is modelled by the way it settles. *)

From Stdlib Require Import ZArith NArith Ascii String.
From stdpp Require Import gmap strings list pretty.

Local Open Scope Z_scope.

(** ** Strings *)

Module JsString.

(** One UTF-16 code unit. *)
Definition code_unit := N.

Definition jsstring := list code_unit.

(** A program literal, whose characters are all below 0x80. *)
Definition str (s : string) : jsstring :=
  (fun a => N_of_ascii a) <$> list_ascii_of_string s.

Definition unit_eqb (a b : code_unit) : bool := N.eqb a b.

Fixpoint jsstring_eqb (a b : jsstring) : bool :=
  match a, b with
  | [], [] => true
  | x :: a', y :: b' => unit_eqb x y && jsstring_eqb a' b'
  | _, _ => false
  end.

Definition is_digit (c : code_unit) : bool := ((48 <=? c) && (c <=? 57))%N.

Definition digit_value (c : code_unit) : Z := Z.of_N c - 48.

Definition hex_value (c : code_unit) : option N :=
  if ((48 <=? c) && (c <=? 57))%N then Some (c - 48)%N
  else if ((65 <=? c) && (c <=? 70))%N then Some (c - 55)%N
  else if ((97 <=? c) && (c <=? 102))%N then Some (c - 87)%N
  else None.

(** Lower-case hexadecimal digit of a value below 16. *)
Definition hex_digit (n : N) : code_unit :=
  if (n <? 10)%N then (48 + n)%N else (87 + n)%N.

(** The four hexadecimal digits of a code unit, as in [\uXXXX]. *)
Definition hex4 (c : code_unit) : jsstring :=
  [hex_digit ((c / 4096) mod 16); hex_digit ((c / 256) mod 16);
   hex_digit ((c / 16) mod 16); hex_digit (c mod 16)]%N.

(** Decimal digits of a non-negative integer. *)
Definition decimal (z : Z) : jsstring := str (pretty (Z.to_N z)).

Fixpoint join (sep : jsstring) (parts : list jsstring) : jsstring :=
  match parts with
  | [] => []
  | [p] => p
  | p :: rest => p ++ sep ++ join sep rest
  end.

End JsString.
Export JsString.

(** ** Values *)

Inductive number :=
| NaN
| Infinity (negative : bool)
| Dec (m : Z) (e : Z).            (* m * 10^e *)

(** The members of an object are listed in property enumeration order
    (integer-like keys ascending, then the others by creation). *)
#[warnings="-register-all"] Inductive jsval :=
| VUndefined
| VNull
| VBool (b : bool)
| VNum (n : number)
| VStr (s : jsstring)
| VArr (items : list jsval)
| VObj (members : list (jsstring * jsval)).

(** Exceptions the program can meet. *)
Inductive exn :=
| SyntaxError                      (* thrown by JSON.parse *)
| TypeError                        (* calling something that is not a function *)
| Error (message : jsstring)       (* new Error(message) *)
| ReplyError (reason : jsstring).  (* rejection coming from the transport *)

Inductive completion (A : Type) :=
| Normal (a : A)
| Throw (e : exn).
Arguments Normal {A} a.
Arguments Throw {A} e.

(** A settled promise. *)
Inductive promise (A : Type) :=
| Fulfilled (a : A)
| Rejected (e : exn).
Arguments Fulfilled {A} a.
Arguments Rejected {A} e.

(** [p.then(f)] for a callback that returns a plain value or throws. *)
Definition promise_then {A B} (p : promise A) (f : A -> completion B) : promise B :=
  match p with
  | Fulfilled a =>
      match f a with
      | Normal b => Fulfilled b
      | Throw e => Rejected e
      end
  | Rejected e => Rejected e
  end.

(** ** Numbers *)

Module Number.

(** [a * 10^ea = b * 10^eb], compared at the smaller exponent. *)
Definition dec_eqb (a ea b eb : Z) : bool :=
  let lo := Z.min ea eb in
  (a * 10 ^ (ea - lo) =? b * 10 ^ (eb - lo)).

(** Number::equal; [NaN] differs from everything. *)
Definition equal (x y : number) : bool :=
  match x, y with
  | Dec a ea, Dec b eb => dec_eqb a ea b eb
  | Infinity s, Infinity t => Bool.eqb s t
  | _, _ => false
  end.

Fixpoint drop_zeros (rev_digits : jsstring) (dropped : Z) : jsstring * Z :=
  match rev_digits with
  | 48%N :: rest => drop_zeros rest (dropped + 1)
  | _ => (rev_digits, dropped)
  end.

Definition zeros (n : Z) : jsstring := replicate (Z.to_nat n) 48%N.

Definition exponent_part (n : Z) : jsstring :=
  str "e" ++ (if 0 <=? n - 1 then str "+" else str "-") ++ decimal (Z.abs (n - 1)).

(** Number::toString for a positive decimal [m * 10^e] (radix 10).
    [s] holds the [k] significant digits and the value is [s * 10^(n-k)]. *)
Definition positive_to_string (m e : Z) : jsstring :=
  let '(rs, dropped) := drop_zeros (rev (decimal m)) 0 in
  let s := rev rs in
  let k := Z.of_nat (length s) in
  let n := k + e + dropped in
  if (k <=? n) && (n <=? 21) then s ++ zeros (n - k)
  else if (0 <? n) && (n <=? 21) then
    take (Z.to_nat n) s ++ str "." ++ drop (Z.to_nat n) s
  else if (-6 <? n) && (n <=? 0) then str "0." ++ zeros (- n) ++ s
  else if k =? 1 then s ++ exponent_part n
  else take 1 s ++ str "." ++ drop 1 s ++ exponent_part n.

Definition to_string (x : number) : jsstring :=
  match x with
  | NaN => str "NaN"
  | Infinity false => str "Infinity"
  | Infinity true => str "-Infinity"
  | Dec m e =>
      if m =? 0 then str "0"
      else if m <? 0 then str "-" ++ positive_to_string (- m) e
      else positive_to_string m e
  end.

Definition is_finite (x : number) : bool :=
  match x with Dec _ _ => true | _ => false end.

End Number.

(** ** ToString and strict equality *)

Fixpoint ToString (v : jsval) : jsstring :=
  match v with
  | VUndefined => str "undefined"
  | VNull => str "null"
  | VBool true => str "true"
  | VBool false => str "false"
  | VNum n => Number.to_string n
  | VStr s => s
  | VArr items =>
      (* Array.prototype.join: undefined and null give the empty string *)
      join (str ",")
        (map (fun x => match x with
                       | VUndefined | VNull => []
                       | _ => ToString x
                       end) items)
  | VObj _ => str "[object Object]"
  end.

(** [a === b] when one side is a primitive; two distinct arrays or objects
    are never identical, and references are not modelled. *)
Definition strict_equals (a b : jsval) : bool :=
  match a, b with
  | VUndefined, VUndefined => true
  | VNull, VNull => true
  | VBool x, VBool y => Bool.eqb x y
  | VNum x, VNum y => Number.equal x y
  | VStr x, VStr y => jsstring_eqb x y
  | _, _ => false
  end.

(** ** JSON.stringify (ECMA-262, 25.5.2), called with one argument *)

Module Stringify.

Definition is_high_surrogate (c : code_unit) : bool := ((55296 <=? c) && (c <=? 56319))%N.
Definition is_low_surrogate (c : code_unit) : bool := ((56320 <=? c) && (c <=? 57343))%N.

Definition unicode_escape (c : code_unit) : jsstring := str "\u" ++ hex4 c.

(** One code unit of QuoteJSONString that is not part of a surrogate pair. *)
Definition quote_unit (c : code_unit) : jsstring :=
  match c with
  | 8%N => str "\b"
  | 9%N => str "\t"
  | 10%N => str "\n"
  | 12%N => str "\f"
  | 13%N => str "\r"
  | 34%N => [92; 34]%N
  | 92%N => [92; 92]%N
  | _ =>
      if (c <? 32)%N || is_high_surrogate c || is_low_surrogate c
      then unicode_escape c
      else [c]
  end.

Fixpoint quote_units (s : jsstring) : jsstring :=
  match s with
  | [] => []
  | c :: rest =>
      match rest with
      | d :: rest' =>
          if is_high_surrogate c && is_low_surrogate d
          then c :: d :: quote_units rest'
          else quote_unit c ++ quote_units rest
      | [] => quote_unit c
      end
  end.

(** QuoteJSONString *)
Definition quote (s : jsstring) : jsstring := [34%N] ++ quote_units s ++ [34%N].

(** SerializeJSONProperty: [None] stands for the result [undefined]. *)
Fixpoint serialize (v : jsval) : option jsstring :=
  match v with
  | VUndefined => None
  | VNull => Some (str "null")
  | VBool true => Some (str "true")
  | VBool false => Some (str "false")
  | VNum n => Some (if Number.is_finite n then Number.to_string n else str "null")
  | VStr s => Some (quote s)
  | VArr items =>
      (* SerializeJSONArray: an undefined element is written as null *)
      Some (str "[" ++
            join (str ",")
              (map (fun x => match serialize x with
                             | Some t => t
                             | None => str "null"
                             end) items) ++
            str "]")
  | VObj members =>
      (* SerializeJSONObject: a member whose value is undefined is left out *)
      Some (str "{" ++
            join (str ",")
              (omap (fun kx => match serialize (snd kx) with
                               | Some t => Some (quote (fst kx) ++ str ":" ++ t)
                               | None => None
                               end) members) ++
            str "}")
  end.

End Stringify.

Definition JSON_stringify (value : jsval) : jsval :=
  match Stringify.serialize value with
  | Some text => VStr text
  | None => VUndefined
  end.

(** ** JSON.parse (ECMA-262, 25.5.1), called with one argument *)

Module Parse.

Inductive token :=
| TLBracket | TRBracket | TLBrace | TRBrace | TColon | TComma
| TString (s : jsstring)
| TNumber (n : number)
| TTrue | TFalse | TNull.

(** *** Number literals: an optional minus sign, an integer part without
    leading zero, an optional fraction, an optional exponent *)

Inductive num_state :=
| NStart | NMinus | NZero | NInt | NDot | NFrac | NE | NESign | NExp.

Record num_acc := {
  n_neg : bool; n_mant : Z; n_scale : Z; n_eneg : bool; n_exp : Z
}.

Definition push_int (a : num_acc) (c : code_unit) : num_acc :=
  {| n_neg := n_neg a; n_mant := 10 * n_mant a + digit_value c;
     n_scale := n_scale a; n_eneg := n_eneg a; n_exp := n_exp a |}.

Definition push_frac (a : num_acc) (c : code_unit) : num_acc :=
  {| n_neg := n_neg a; n_mant := 10 * n_mant a + digit_value c;
     n_scale := n_scale a + 1; n_eneg := n_eneg a; n_exp := n_exp a |}.

Definition push_exp (a : num_acc) (c : code_unit) : num_acc :=
  {| n_neg := n_neg a; n_mant := n_mant a; n_scale := n_scale a;
     n_eneg := n_eneg a; n_exp := 10 * n_exp a + digit_value c |}.

Definition set_neg (a : num_acc) : num_acc :=
  {| n_neg := true; n_mant := n_mant a; n_scale := n_scale a;
     n_eneg := n_eneg a; n_exp := n_exp a |}.

Definition set_eneg (a : num_acc) : num_acc :=
  {| n_neg := n_neg a; n_mant := n_mant a; n_scale := n_scale a;
     n_eneg := true; n_exp := n_exp a |}.

Definition num_value (a : num_acc) : number :=
  Dec (if n_neg a then - n_mant a else n_mant a)
      ((if n_eneg a then - n_exp a else n_exp a) - n_scale a).

Definition is_e (c : code_unit) : bool := (c =? 101)%N || (c =? 69)%N.

Fixpoint scan_number (st : num_state) (a : num_acc) (lit : jsstring) : option number :=
  match lit with
  | [] =>
      match st with
      | NZero | NInt | NFrac | NExp => Some (num_value a)
      | _ => None
      end
  | c :: rest =>
      match st with
      | NStart =>
          if (c =? 45)%N then scan_number NMinus (set_neg a) rest
          else if (c =? 48)%N then scan_number NZero a rest
          else if is_digit c then scan_number NInt (push_int a c) rest
          else None
      | NMinus =>
          if (c =? 48)%N then scan_number NZero a rest
          else if is_digit c then scan_number NInt (push_int a c) rest
          else None
      | NZero =>
          if (c =? 46)%N then scan_number NDot a rest
          else if is_e c then scan_number NE a rest
          else None
      | NInt =>
          if is_digit c then scan_number NInt (push_int a c) rest
          else if (c =? 46)%N then scan_number NDot a rest
          else if is_e c then scan_number NE a rest
          else None
      | NDot =>
          if is_digit c then scan_number NFrac (push_frac a c) rest else None
      | NFrac =>
          if is_digit c then scan_number NFrac (push_frac a c) rest
          else if is_e c then scan_number NE a rest
          else None
      | NE =>
          if (c =? 43)%N then scan_number NESign a rest
          else if (c =? 45)%N then scan_number NESign (set_eneg a) rest
          else if is_digit c then scan_number NExp (push_exp a c) rest
          else None
      | NESign | NExp =>
          if is_digit c then scan_number NExp (push_exp a c) rest else None
      end
  end.

Definition number_of_literal (lit : jsstring) : option number :=
  scan_number NStart
    {| n_neg := false; n_mant := 0; n_scale := 0; n_eneg := false; n_exp := 0 |} lit.

(** *** The scanner: one pass over the code units *)

Inductive lex_mode :=
| LDefault
| LNumber (rev_lit : jsstring)
| LWord (rev_lit : jsstring)
| LString (rev_acc : jsstring)
| LEscape (rev_acc : jsstring)
| LUnicode (rev_acc : jsstring) (digits : list N).

Definition is_whitespace (c : code_unit) : bool :=
  (c =? 32)%N || (c =? 9)%N || (c =? 10)%N || (c =? 13)%N.

Definition is_number_char (c : code_unit) : bool :=
  is_digit c || (c =? 45)%N || (c =? 43)%N || (c =? 46)%N || is_e c.

Definition is_lower (c : code_unit) : bool := ((97 <=? c) && (c <=? 122))%N.

Definition word_token (w : jsstring) : option token :=
  if jsstring_eqb w (str "true") then Some TTrue
  else if jsstring_eqb w (str "false") then Some TFalse
  else if jsstring_eqb w (str "null") then Some TNull
  else None.

(** Close the token being read, if any; [rev_toks] is in reverse order. *)
Definition finish (mode : lex_mode) (rev_toks : list token) : option (list token) :=
  match mode with
  | LDefault => Some rev_toks
  | LNumber lit => n ← number_of_literal (rev lit); Some (TNumber n :: rev_toks)
  | LWord w => t ← word_token (rev w); Some (t :: rev_toks)
  | LString _ | LEscape _ | LUnicode _ _ => None
  end.

Definition default_step (c : code_unit) (rev_toks : list token)
  : option (lex_mode * list token) :=
  if is_whitespace c then Some (LDefault, rev_toks)
  else if (c =? 91)%N then Some (LDefault, TLBracket :: rev_toks)
  else if (c =? 93)%N then Some (LDefault, TRBracket :: rev_toks)
  else if (c =? 123)%N then Some (LDefault, TLBrace :: rev_toks)
  else if (c =? 125)%N then Some (LDefault, TRBrace :: rev_toks)
  else if (c =? 58)%N then Some (LDefault, TColon :: rev_toks)
  else if (c =? 44)%N then Some (LDefault, TComma :: rev_toks)
  else if (c =? 34)%N then Some (LString [], rev_toks)
  else if is_digit c || (c =? 45)%N then Some (LNumber [c], rev_toks)
  else if is_lower c then Some (LWord [c], rev_toks)
  else None.

Definition escape_step (c : code_unit) (acc : jsstring) : option lex_mode :=
  match c with
  | 34%N => Some (LString (34%N :: acc))
  | 92%N => Some (LString (92%N :: acc))
  | 47%N => Some (LString (47%N :: acc))
  | 98%N => Some (LString (8%N :: acc))
  | 102%N => Some (LString (12%N :: acc))
  | 110%N => Some (LString (10%N :: acc))
  | 114%N => Some (LString (13%N :: acc))
  | 116%N => Some (LString (9%N :: acc))
  | 117%N => Some (LUnicode acc [])
  | _ => None
  end.

Definition unicode_step (c : code_unit) (acc : jsstring) (digits : list N)
  : option lex_mode :=
  h ← hex_value c;
  match digits with
  | [d1; d2; d3] => Some (LString ((d1 * 4096 + d2 * 256 + d3 * 16 + h)%N :: acc))
  | _ => Some (LUnicode acc (digits ++ [h]))
  end.

Definition lex_step (mode : lex_mode) (rev_toks : list token) (c : code_unit)
  : option (lex_mode * list token) :=
  match mode with
  | LDefault => default_step c rev_toks
  | LNumber lit =>
      if is_number_char c then Some (LNumber (c :: lit), rev_toks)
      else toks ← finish mode rev_toks; default_step c toks
  | LWord w =>
      if is_lower c then Some (LWord (c :: w), rev_toks)
      else toks ← finish mode rev_toks; default_step c toks
  | LString acc =>
      if (c =? 34)%N then Some (LDefault, TString (rev acc) :: rev_toks)
      else if (c =? 92)%N then Some (LEscape acc, rev_toks)
      else if (c <? 32)%N then None
      else Some (LString (c :: acc), rev_toks)
  | LEscape acc => m ← escape_step c acc; Some (m, rev_toks)
  | LUnicode acc digits => m ← unicode_step c acc digits; Some (m, rev_toks)
  end.

Fixpoint lex_from (mode : lex_mode) (rev_toks : list token) (text : jsstring)
  : option (list token) :=
  match text with
  | [] => toks ← finish mode rev_toks; Some (rev toks)
  | c :: rest =>
      match lex_step mode rev_toks c with
      | Some (mode', toks') => lex_from mode' toks' rest
      | None => None
      end
  end.

Definition lex (text : jsstring) : option (list token) := lex_from LDefault [] text.

(** *** Objects under construction *)

(** An array index: a canonical numeric string below 2^32 - 1. *)
Definition array_index (k : jsstring) : option Z :=
  match k with
  | [] => None
  | [48%N] => Some 0
  | 48%N :: _ => None
  | _ =>
      if forallb is_digit k
      then let i := fold_left (fun acc c => 10 * acc + digit_value c) k 0 in
           if i <? 4294967295 then Some i else None
      else None
  end.

Definition has_key (k : jsstring) (members : list (jsstring * jsval)) : bool :=
  existsb (fun kx => jsstring_eqb (fst kx) k) members.

Fixpoint replace_member (k : jsstring) (v : jsval) (members : list (jsstring * jsval))
  : list (jsstring * jsval) :=
  match members with
  | [] => []
  | (k', x) :: rest =>
      if jsstring_eqb k' k then (k', v) :: rest
      else (k', x) :: replace_member k v rest
  end.

(** Place a new index key after the smaller index keys. *)
Fixpoint insert_index (i : Z) (k : jsstring) (v : jsval) (members : list (jsstring * jsval))
  : list (jsstring * jsval) :=
  match members with
  | [] => [(k, v)]
  | (k', x) :: rest =>
      match array_index k' with
      | Some j => if j <? i then (k', x) :: insert_index i k v rest
                  else (k, v) :: members
      | None => (k, v) :: members
      end
  end.

(** CreateDataProperty on an ordinary object, keeping enumeration order. *)
Definition define_member (k : jsstring) (v : jsval) (members : list (jsstring * jsval))
  : list (jsstring * jsval) :=
  if has_key k members then replace_member k v members
  else match array_index k with
       | Some i => insert_index i k v members
       | None => members ++ [(k, v)]
       end.

(** *** The parser: a pushdown automaton over the tokens *)

(** An enclosing array or object still open. *)
Inductive context :=
| InArray (rev_items : list jsval)
| InObject (members : list (jsstring * jsval)) (key : jsstring).

Inductive parse_state :=
| PValue (stack : list context)                 (* a value must follow *)
| PArrayOpen (stack : list context)             (* just after [ *)
| PObjectOpen (stack : list context)            (* just after { *)
| PKey (members : list (jsstring * jsval)) (stack : list context)
                                                (* after , in an object *)
| PColon (members : list (jsstring * jsval)) (key : jsstring) (stack : list context)
| PAfter (v : jsval) (stack : list context).    (* v is complete *)

Definition value_step (t : token) (stack : list context) : option parse_state :=
  match t with
  | TString s => Some (PAfter (VStr s) stack)
  | TNumber n => Some (PAfter (VNum n) stack)
  | TTrue => Some (PAfter (VBool true) stack)
  | TFalse => Some (PAfter (VBool false) stack)
  | TNull => Some (PAfter VNull stack)
  | TLBracket => Some (PArrayOpen stack)
  | TLBrace => Some (PObjectOpen stack)
  | _ => None
  end.

Definition parse_step (st : parse_state) (t : token) : option parse_state :=
  match st with
  | PValue stack => value_step t stack
  | PArrayOpen stack =>
      match t with
      | TRBracket => Some (PAfter (VArr []) stack)
      | _ => value_step t (InArray [] :: stack)
      end
  | PObjectOpen stack =>
      match t with
      | TRBrace => Some (PAfter (VObj []) stack)
      | TString k => Some (PColon [] k stack)
      | _ => None
      end
  | PKey members stack =>
      match t with
      | TString k => Some (PColon members k stack)
      | _ => None
      end
  | PColon members k stack =>
      match t with
      | TColon => Some (PValue (InObject members k :: stack))
      | _ => None
      end
  | PAfter v [] => None
  | PAfter v (InArray items :: stack) =>
      match t with
      | TComma => Some (PValue (InArray (v :: items) :: stack))
      | TRBracket => Some (PAfter (VArr (rev (v :: items))) stack)
      | _ => None
      end
  | PAfter v (InObject members k :: stack) =>
      match t with
      | TComma => Some (PKey (define_member k v members) stack)
      | TRBrace => Some (PAfter (VObj (define_member k v members)) stack)
      | _ => None
      end
  end.

Fixpoint parse_from (st : parse_state) (toks : list token) : option jsval :=
  match toks with
  | [] =>
      match st with
      | PAfter v [] => Some v
      | _ => None
      end
  | t :: rest =>
      match parse_step st t with
      | Some st' => parse_from st' rest
      | None => None
      end
  end.

(** The value of a JSON text, or [None] when the text is malformed. *)
Definition parse_text (text : jsstring) : option jsval :=
  toks ← lex text; parse_from (PValue []) toks.

End Parse.

(** [JSON.parse(text)]: the argument is first converted with ToString. *)
Definition JSON_parse (text : jsval) : completion jsval :=
  match Parse.parse_text (ToString text) with
  | Some v => Normal v
  | None => Throw SyntaxError
  end.

(** ** parseFloat (ECMA-262, 19.2.4) *)

Module ParseFloat.

Import Parse.

(** WhiteSpace and LineTerminator code units, stripped from the start. *)
Definition is_space (c : code_unit) : bool :=
  ((9 <=? c) && (c <=? 13) || (c =? 32) || (c =? 160) || (c =? 5760)
   || (8192 <=? c) && (c <=? 8202) || (c =? 8232) || (c =? 8233)
   || (c =? 8239) || (c =? 8287) || (c =? 12288) || (c =? 65279))%N.

Fixpoint trim_start (s : jsstring) : jsstring :=
  match s with
  | c :: rest => if is_space c then trim_start rest else s
  | [] => []
  end.

Fixpoint starts_with (prefix s : jsstring) : bool :=
  match prefix, s with
  | [], _ => true
  | p :: prefix', c :: s' => unit_eqb p c && starts_with prefix' s'
  | _ :: _, [] => false
  end.

Inductive float_state :=
| FStart | FSigned | FInt | FPoint | FFrac | FE | FESign | FExp.

(** The longest prefix that is a StrDecimalLiteral without sign and without
    [Infinity]; [best] is the value of the longest one seen so far. *)
Fixpoint scan_float (st : float_state) (a : num_acc) (best : option number) (s : jsstring)
  : option number :=
  match s with
  | [] => best
  | c :: rest =>
      match st with
      | FStart | FSigned =>
          if is_digit c
          then let a' := push_int a c in scan_float FInt a' (Some (num_value a')) rest
          else if (c =? 46)%N then scan_float FPoint a best rest
          else best
      | FInt =>
          if is_digit c
          then let a' := push_int a c in scan_float FInt a' (Some (num_value a')) rest
          else if (c =? 46)%N then scan_float FFrac a best rest
          else if is_e c then scan_float FE a best rest
          else best
      | FPoint =>
          if is_digit c
          then let a' := push_frac a c in scan_float FFrac a' (Some (num_value a')) rest
          else best
      | FFrac =>
          if is_digit c
          then let a' := push_frac a c in scan_float FFrac a' (Some (num_value a')) rest
          else if is_e c then scan_float FE a best rest
          else best
      | FE =>
          if (c =? 43)%N then scan_float FESign a best rest
          else if (c =? 45)%N then scan_float FESign (set_eneg a) best rest
          else if is_digit c
          then let a' := push_exp a c in scan_float FExp a' (Some (num_value a')) rest
          else best
      | FESign | FExp =>
          if is_digit c
          then let a' := push_exp a c in scan_float FExp a' (Some (num_value a')) rest
          else best
      end
  end.

Definition unsigned_literal (negative : bool) (s : jsstring) : option number :=
  if starts_with (str "Infinity") s then Some (Infinity negative)
  else scan_float FSigned
         {| n_neg := negative; n_mant := 0; n_scale := 0; n_eneg := false; n_exp := 0 |}
         None s.

Definition literal (s : jsstring) : option number :=
  match s with
  | 43%N :: rest => unsigned_literal false rest
  | 45%N :: rest => unsigned_literal true rest
  | _ => unsigned_literal false s
  end.

End ParseFloat.

Definition parseFloat (string : jsval) : jsval :=
  match ParseFloat.literal (ParseFloat.trim_start (ToString string)) with
  | Some n => VNum n
  | None => VNum NaN
  end.

(** ** lodash.map *)

(** [arrayMap]: the iteratee is applied from left to right and the first
    exception ends the loop. *)
Fixpoint arrayMap {A B} (array : list A) (iteratee : A -> completion B)
  : completion (list B) :=
  match array with
  | [] => Normal []
  | x :: rest =>
      match iteratee x with
      | Normal y =>
          match arrayMap rest iteratee with
          | Normal ys => Normal (y :: ys)
          | Throw e => Throw e
          end
      | Throw e => Throw e
      end
  end.

(** ** The transport collaborator: an ioredis client

    The class [Redis] is outside the repository.  What the facade uses of it
    is [createBuiltinCommand] and, through the functions it returns,
    [sendCommand]. *)

(** The [replyEncoding] of a command: ['utf8'] or [null]. *)
Inductive encoding := Utf8 | Binary.

(** The identity of a client object. *)
Definition handle := nat.

(** What can be handed to an invoker: a value, or the client object itself. *)
Inductive arg :=
| Arg (v : jsval)
| ArgThis (h : handle).

(** [new Command(name, args, { replyEncoding })] *)
Record Command := {
  name : string;
  replyEncoding : encoding;
  args : list arg
}.

(** What a command resolves to: nil, an integer, a status or bulk string,
    or an array of replies. *)
#[warnings="-register-all"] Inductive reply :=
| RNil
| RInt (z : Z)
| RBulk (s : jsstring)
| RArray (items : list reply).

(** A reply seen as a JavaScript value. *)
Fixpoint val (r : reply) : jsval :=
  match r with
  | RNil => VNull
  | RInt z => VNum (Dec z 0)
  | RBulk s => VStr s
  | RArray items => VArr (map val items)
  end.

(** The connection and the store behind it: [wire] is their state, and
    sending a command settles a promise and moves the state. *)
Class Transport := {
  wire : Type;
  sendCommand : handle -> Command -> wire -> promise reply * wire
}.

(** A function made by ioredis' [generateFunction(commandName, encoding)];
    it sends through its [this]. *)
Record builtin_function := {
  commandName : string;
  fn_encoding : encoding
}.

(** The object returned by [createBuiltinCommand]: { string, buffer }. *)
Record builtin_command := {
  cmd_string : builtin_function;
  cmd_buffer : builtin_function
}.

Definition createBuiltinCommand (commandName : string) : builtin_command :=
  {| cmd_string := {| commandName := commandName; fn_encoding := Utf8 |};
     cmd_buffer := {| commandName := commandName; fn_encoding := Binary |} |}.

(** [f.bind(this)] *)
Record invoker := {
  target : builtin_function;
  bound_this : handle
}.

Definition bind (f : builtin_function) (this : handle) : invoker :=
  {| target := f; bound_this := this |}.

(** A call that runs against the transport: it returns normally or throws,
    and leaves the transport in a new state. *)
Definition action `{Transport} (A : Type) := wire -> completion A * wire.

Definition ret `{Transport} {A} (a : A) : action A := fun w => (Normal a, w).

Definition and_then `{Transport} {A B} (m : action A) (k : A -> action B) : action B :=
  fun w =>
    match m w with
    | (Normal a, w') => k a w'
    | (Throw e, w') => (Throw e, w')
    end.

Notation "x <- m ;; k" := (and_then m (fun x => k))
  (at level 100, m at next level, right associativity, only parsing).

(** [cmd(...arguments)] for a bound invoker. *)
Definition call `{Transport} (cmd : invoker) (arguments : list arg)
  : action (promise reply) :=
  fun w =>
    let sent := sendCommand (bound_this cmd)
                  {| name := commandName (target cmd);
                     replyEncoding := fn_encoding (target cmd);
                     args := arguments |} w in
    (Normal (fst sent), snd sent).

(** Lift a pure completion (an iteratee loop that may throw). *)
Definition lift `{Transport} {A} (c : completion A) : action A := fun w => (c, w).

(** [collection.map] of lodash on a reply: [arrayMap] on an array, the code
    units one by one on a string (an array-like), nothing to visit on
    [null] and on a number. *)
Definition lodash_map (collection : reply) (iteratee : jsval -> completion jsval)
  : completion (list jsval) :=
  match collection with
  | RArray items => arrayMap (map val items) iteratee
  | RBulk s => arrayMap (map (fun c => VStr [c]) s) iteratee
  | RNil | RInt _ => Normal []
  end.

(** The promise of a bound invoker handed back as it is. *)
Definition as_value (p : promise reply) : promise jsval :=
  match p with
  | Fulfilled r => Fulfilled (val r)
  | Rejected e => Rejected e
  end.

(** ** class Rejson extends Redis *)

Local Open Scope string_scope.
Local Open Scope list_scope.

(** [static commands] *)
Definition commands : list string := [
  "JSON.DEL";
  "JSON.GET";
  "JSON.MGET";
  "JSON.SET";
  "JSON.TYPE";
  "JSON.NUMINCRBY";
  "JSON.NUMMULTBY";
  "JSON.STRAPPEND";
  "JSON.STRLEN";
  "JSON.ARRAPPEND";
  "JSON.ARRINDEX";
  "JSON.ARRINSERT";
  "JSON.ARRLEN";
  "JSON.ARRPOP";
  "JSON.ARRTRIM";
  "JSON.OBJKEYS";
  "JSON.OBJLEN";
  "JSON.DEBUG";
  "JSON.FORGET";
  "JSON.RESP"
].

(** An instance: the client object [this] (what [super(opts)] set up) and
    the own property [cmds]. *)
Record Rejson := {
  this : handle;
  cmds : gmap string invoker
}.

(** The body of the constructor's loop, for one entry of the table. *)
Definition bind_command (this : handle) (cmds : gmap string invoker) (command : string)
  : gmap string invoker :=
  let cmd := createBuiltinCommand command in
  let cmds := <[command := bind (cmd_string cmd) this]> cmds in
  <[command +:+ "Buffer" := bind (cmd_buffer cmd) this]> cmds.

(** The constructor's loop over the table.  Beside the mapping it fills, the
    entries it runs its body for are written down in order: one entry of
    this list is one call of [createBuiltinCommand] and one pair of bound
    invokers made and stored. *)
Definition construct (this : handle) : gmap string invoker * list string :=
  foldl (fun st command => (bind_command this (fst st) command, snd st ++ [command]))
        (∅, []) commands.

(** [new Rejson(opts)], for the client object [this] made by [super(opts)]. *)
Definition constructor (this : handle) : Rejson :=
  {| this := this;
     cmds := fst (construct this) |}.

Section Facade.

Context `{Transport}.

(** [this.cmds[command](...arguments)]; calling a missing property throws a
    TypeError. *)
Definition invoke (self : Rejson) (command : string) (arguments : list arg)
  : action (promise reply) :=
  match cmds self !! command with
  | Some cmd => call cmd arguments
  | None => lift (Throw TypeError)
  end.

Definition jsonSet (self : Rejson) (key path value : jsval) : action (promise jsval) :=
  let _value := JSON_stringify value in
  p <- invoke self "JSON.SET" [Arg key; Arg path; Arg _value];;
  ret (promise_then p (fun result =>
         if strict_equals (val result) (VStr (str "OK"))
         then Normal (VBool true)
         else Throw (Error (ToString (val result))))).

Definition jsonGet (self : Rejson) (key path : jsval) : action (promise jsval) :=
  p <- invoke self "JSON.GET" [Arg key; Arg path];;
  ret (promise_then p (fun value => JSON_parse (val value))).

Definition jsonMget (self : Rejson) (arguments : list jsval) : action (promise jsval) :=
  let _arguments := arguments in
  p <- invoke self "JSON.MGET" (map Arg _arguments);;
  ret (promise_then p (fun results =>
         match lodash_map results (fun value => JSON_parse value) with
         | Normal parsed => Normal (VArr parsed)
         | Throw e => Throw e
         end)).

Definition jsonDel (self : Rejson) (key path : jsval) : action (promise jsval) :=
  p <- invoke self "JSON.DEL" [Arg key; Arg path];;
  ret (promise_then p (fun result =>
         Normal (VBool (strict_equals (val result) (VNum (Dec 1 0)))))).

Definition jsonobjkeys (self : Rejson) (key path : jsval) : action (promise jsval) :=
  p <- invoke self "JSON.OBJKEYS" [ArgThis (this self); Arg key; Arg path];;
  ret (as_value p).

Definition jsonObjlen (self : Rejson) (key path : jsval) : action (promise jsval) :=
  p <- invoke self "JSON.OBJLEN" [Arg key; Arg path];;
  ret (as_value p).

Definition jsonType (self : Rejson) (key path : jsval) : action (promise jsval) :=
  p <- invoke self "JSON.TYPE" [Arg key; Arg path];;
  ret (as_value p).

Definition jsonNumincrby (self : Rejson) (key path number : jsval) : action (promise jsval) :=
  p <- invoke self "JSON.NUMINCRBY" [Arg key; Arg path; Arg number];;
  ret (promise_then p (fun result => Normal (parseFloat (val result)))).

Definition jsonNummultby (self : Rejson) (key path number : jsval) : action (promise jsval) :=
  p <- invoke self "JSON.NUMMULTBY" [Arg key; Arg path; Arg number];;
  ret (promise_then p (fun result => Normal (parseFloat (val result)))).

Definition jsonStrappend (self : Rejson) (key path string : jsval) : action (promise jsval) :=
  p <- invoke self "JSON.STRAPPEND" [Arg key; Arg path; Arg (JSON_stringify string)];;
  ret (as_value p).

Definition jsonStrlen (self : Rejson) (key path : jsval) : action (promise jsval) :=
  p <- invoke self "JSON.STRLEN" [Arg key; Arg path];;
  ret (as_value p).

Definition jsonArrappend (self : Rejson) (arguments : list jsval) : action (promise jsval) :=
  let _arguments := arguments in
  let fixed := take 2 _arguments in
  items <- lift (arrayMap (drop 2 _arguments) (fun item => Normal (JSON_stringify item)));;
  p <- invoke self "JSON.ARRAPPEND" (map Arg (fixed ++ items));;
  ret (as_value p).

Definition jsonArrindex (self : Rejson) (key path scalar : jsval) : action (promise jsval) :=
  p <- invoke self "JSON.ARRINDEX" [Arg key; Arg path; Arg (JSON_stringify scalar)];;
  ret (as_value p).

Definition jsonArrinsert (self : Rejson) (arguments : list jsval) : action (promise jsval) :=
  let _arguments := arguments in
  let fixed := take 3 _arguments in
  items <- lift (arrayMap (drop 3 _arguments) (fun item => Normal (JSON_stringify item)));;
  p <- invoke self "JSON.ARRINSERT" (map Arg (fixed ++ items));;
  ret (as_value p).

Definition jsonArrlen (self : Rejson) (key path : jsval) : action (promise jsval) :=
  p <- invoke self "JSON.ARRLEN" [Arg key; Arg path];;
  ret (as_value p).

Definition jsonArrpop (self : Rejson) (key path index : jsval) : action (promise jsval) :=
  p <- invoke self "JSON.ARRPOP" [Arg key; Arg path; Arg index];;
  ret (promise_then p (fun result => JSON_parse (val result))).

Definition jsonArrtrim (self : Rejson) (key path start end_ : jsval) : action (promise jsval) :=
  p <- invoke self "JSON.ARRTRIM" [Arg key; Arg path; Arg start; Arg end_];;
  ret (as_value p).

End Facade.

(** ** Values that are not document values

    A caller can hand [jsonSet] any JavaScript value.  Beside the document
    values these are, as far as [JSON.stringify] tells them apart: a bigint,
    a function, a symbol, and an object or array that contains itself. *)
Inductive anyval :=
| Document (v : jsval)
| BigInt (z : Z)
| FunctionValue
| SymbolValue
| Circular.

(** [JSON.stringify(value)] for any value (ECMA-262, 25.5.2): a TypeError for
    a bigint and for a cyclic structure, undefined for a function and for a
    symbol. *)
Definition JSON_stringify_any (value : anyval) : completion jsval :=
  match value with
  | Document v => Normal (JSON_stringify v)
  | BigInt _ | Circular => Throw TypeError
  | FunctionValue | SymbolValue => Normal VUndefined
  end.

(** [jsonSet(key, path, value)] for any value in the place of [value]: the
    first statement of the method is the call of [JSON.stringify]. *)
Definition jsonSet_any `{Transport} (self : Rejson) (key path : jsval) (value : anyval)
  : action (promise jsval) :=
  _value <- lift (JSON_stringify_any value);;
  p <- invoke self "JSON.SET" [Arg key; Arg path; Arg _value];;
  ret (promise_then p (fun result =>
         if strict_equals (val result) (VStr (str "OK"))
         then Normal (VBool true)
         else Throw (Error (ToString (val result))))).

(** ** Observing a facade call *)

(** The command a text invoker builds. *)
Definition text_command (command : string) (arguments : list arg) : Command :=
  {| name := command; replyEncoding := Utf8; args := arguments |}.

(** [m] returns normally after sending exactly one command, [c], through the
    client [h]; the promise it returns is the transport's promise seen
    through [marshal]. *)
Definition sends_one `{Transport} (m : action (promise jsval)) (h : handle) (c : Command)
    (marshal : promise reply -> promise jsval) : Prop :=
  forall w, m w = (Normal (marshal (fst (sendCommand h c w))), snd (sendCommand h c w)).

(** One call of every facade method. *)
Definition facade_calls `{Transport} (self : Rejson) (a b c d : jsval) (l : list jsval)
  : list (action (promise jsval)) :=
  [ jsonSet self a b c; jsonGet self a b; jsonMget self l; jsonDel self a b;
    jsonobjkeys self a b; jsonObjlen self a b; jsonType self a b;
    jsonNumincrby self a b c; jsonNummultby self a b c; jsonStrappend self a b c;
    jsonStrlen self a b; jsonArrappend self l; jsonArrindex self a b c;
    jsonArrinsert self l; jsonArrlen self a b; jsonArrpop self a b c;
    jsonArrtrim self a b c d ].

Definition returns_normally `{Transport} {A} (m : action A) : Prop :=
  forall w, exists a, fst (m w) = Normal a.

(** A transport for examples: it keeps the list of what was sent through
    which client, and settles every command from a fixed script. *)
Definition recording (script : Command -> promise reply) : Transport :=
  {| wire := list (handle * Command);
     sendCommand := fun h c sent => (script c, sent ++ [(h, c)]) |}.

(** What a call sends over a fresh recording transport. *)
Definition frames_of (script : Command -> promise reply)
    (m : @action (recording script) (promise jsval)) : list (handle * Command) :=
  snd (m []).

(** What a call returns over a fresh recording transport. *)
Definition result_of (script : Command -> promise reply)
    (m : @action (recording script) (promise jsval)) : completion (promise jsval) :=
  fst (m []).

(** A string literal of a JSON text: the characters between two quotation
    marks. *)
Definition quoted (s : string) : jsstring := [34%N] ++ str s ++ [34%N].

(** A script that answers every command with the same reply. *)
Definition always (r : reply) : Command -> promise reply := fun _ => Fulfilled r.

(** [m] sends exactly one command, [c], through the client [h], whatever it
    then makes of the reply. *)
Definition sends `{Transport} (m : action (promise jsval)) (h : handle) (c : Command) : Prop :=
  exists marshal, sends_one m h c marshal.

(** ** Shapes shared by the facade methods *)

(** One text command, named [command], and a result step that lets a
    rejection through. *)
Definition one_text_command `{Transport} (h : handle) (m : action (promise jsval))
    (command : string) : Prop :=
  exists arguments marshal,
    sends_one m h (text_command command arguments) marshal /\
    forall e, marshal (Rejected e) = Rejected e.

(** Two mappings with the same keys and, key by key, the same builtin
    function bound to [h1] in the first and to [h2] in the second. *)
Definition same_table_other_client (h1 h2 : handle) (m1 m2 : gmap string invoker) : Prop :=
  forall key,
    match m1 !! key, m2 !! key with
    | Some f1, Some f2 =>
        target f1 = target f2 /\ bound_this f1 = h1 /\ bound_this f2 = h2
    | None, None => True
    | _, _ => False
    end.

(** How many elements lodash's [map] visits in a reply. *)
Definition visited (r : reply) : nat :=
  match r with
  | RArray items => length items
  | RBulk s => length s
  | RNil | RInt _ => 0%nat
  end.

(** ** Values that JSON.parse gives back

    [JSON.parse(JSON.stringify(v))] is [v] for the values [JSON.parse] can
    build, in the representation it builds them in: no [undefined] at any
    depth, every number a finite one written the way the parser reads its
    own printed text back, and the keys of every object pairwise different
    and in enumeration order (array indices ascending, then the others). *)

Definition number_eqb (x y : number) : bool :=
  match x, y with
  | NaN, NaN => true
  | Infinity a, Infinity b => Bool.eqb a b
  | Dec m e, Dec m' e' => (m =? m')%Z && (e =? e')%Z
  | _, _ => false
  end.

(** The number is what the parser makes of its printed text. *)
Definition canonical_number (n : number) : bool :=
  match Parse.number_of_literal (Number.to_string n) with
  | Some n' => number_eqb n n'
  | None => false
  end.

(** [a] may stand before [b] among the keys of an object. *)
Definition key_before (a b : jsstring) : bool :=
  negb (jsstring_eqb a b) &&
  match Parse.array_index a, Parse.array_index b with
  | Some i, Some j => (i <? j)%Z
  | None, Some _ => false
  | _, None => true
  end.

Fixpoint keys_ordered (keys : list jsstring) : bool :=
  match keys with
  | [] => true
  | k :: rest => forallb (key_before k) rest && keys_ordered rest
  end.

Fixpoint canonical (v : jsval) : bool :=
  match v with
  | VUndefined => false
  | VNull | VBool _ | VStr _ => true
  | VNum n => canonical_number n
  | VArr items => forallb canonical items
  | VObj members =>
      forallb (fun kx => canonical (snd kx)) members && keys_ordered (map fst members)
  end.

(** *** What the proof of the round trip speaks of *)

(** The parts joined by a separator, as [join] does for strings. *)
Fixpoint separated {A} (sep : list A) (parts : list (list A)) : list A :=
  match parts with
  | [] => []
  | [p] => p
  | p :: rest => p ++ sep ++ separated sep rest
  end.

(** The tokens of the text of a value. *)
Fixpoint tokens_of (v : jsval) : list Parse.token :=
  match v with
  | VUndefined => []
  | VNull => [Parse.TNull]
  | VBool true => [Parse.TTrue]
  | VBool false => [Parse.TFalse]
  | VNum n => [Parse.TNumber n]
  | VStr s => [Parse.TString s]
  | VArr items =>
      Parse.TLBracket :: separated [Parse.TComma] (map tokens_of items) ++ [Parse.TRBracket]
  | VObj members =>
      Parse.TLBrace
        :: separated [Parse.TComma]
             (map (fun kx => Parse.TString (fst kx) :: Parse.TColon :: tokens_of (snd kx))
                  members)
        ++ [Parse.TRBrace]
  end.

(** The text [JSON.stringify] writes for a value inside an array. *)
Definition text_of (v : jsval) : jsstring :=
  match Stringify.serialize v with
  | Some t => t
  | None => str "null"
  end.

(** What may follow a number or a word in a text: nothing, or a code unit
    that continues neither. *)
Definition delimited (rest : jsstring) : Prop :=
  match rest with
  | [] => True
  | c :: _ => Parse.is_lower c = false /\ Parse.is_number_char c = false
  end.

(** The scanner reads [text] as the tokens [tks], whatever came before and
    whatever delimited text follows. *)
Definition lexes_to (text : jsstring) (tks : list Parse.token) : Prop :=
  forall toks rest,
    delimited rest ->
    Parse.lex_from Parse.LDefault toks (text ++ rest)
    = Parse.lex_from Parse.LDefault (rev tks ++ toks) rest.

(** The parser reads the tokens of [v] as [v], inside any open containers. *)
Definition parses (v : jsval) : Prop :=
  forall stk rest,
    Parse.parse_from (Parse.PValue stk) (tokens_of v ++ rest)
    = Parse.parse_from (Parse.PAfter v stk) rest.

(** The decimal digits of a positive integer, most significant first. *)
Definition digits_of (x : N) : jsstring := str (pretty_N_go x "").

(** The accumulator of a number literal after the digits of [x]. *)
Definition with_mantissa (a : Parse.num_acc) (x : N) : Parse.num_acc :=
  {| Parse.n_neg := Parse.n_neg a; Parse.n_mant := Z.of_N x;
     Parse.n_scale := Parse.n_scale a; Parse.n_eneg := Parse.n_eneg a;
     Parse.n_exp := Parse.n_exp a |}.

(** *** parseFloat beside the JSON number scanner *)

(** The state of [parseFloat]'s scan that goes with a state of the JSON
    number scan. *)
Definition float_state_of (st : Parse.num_state) : ParseFloat.float_state :=
  match st with
  | Parse.NStart => ParseFloat.FStart
  | Parse.NMinus => ParseFloat.FSigned
  | Parse.NZero | Parse.NInt => ParseFloat.FInt
  | Parse.NDot | Parse.NFrac => ParseFloat.FFrac
  | Parse.NE => ParseFloat.FE
  | Parse.NESign => ParseFloat.FESign
  | Parse.NExp => ParseFloat.FExp
  end.

(** The states in which [parseFloat] already holds a value. *)
Definition value_known (st : Parse.num_state) : bool :=
  match st with
  | Parse.NZero | Parse.NInt | Parse.NDot | Parse.NFrac | Parse.NExp => true
  | _ => false
  end.

Definition after_first (st : Parse.num_state) : bool :=
  match st with
  | Parse.NStart | Parse.NMinus => false
  | _ => true
  end.

(** * Properties *)

(** ** The runtime *)

Lemma jsstring_eqb_eq (a b : jsstring) : jsstring_eqb a b = true <-> a = b.
Proof.
  revert b. induction a as [|x a IH]; intros [|y b]; simpl; try easy.
  rewrite andb_true_iff, IH. unfold unit_eqb. rewrite N.eqb_eq.
  split; [intros [-> ->]; reflexivity | intros [= -> ->]; auto].
Qed.

Lemma jsstring_eqb_decide (a b : jsstring) :
  jsstring_eqb a b = if decide (a = b) then true else false.
Proof.
  destruct (decide (a = b)) as [->|Hne].
  - apply jsstring_eqb_eq. reflexivity.
  - destruct (jsstring_eqb a b) eqn:E; [|reflexivity].
    apply jsstring_eqb_eq in E. contradiction.
Qed.

(** [result === 'OK'] holds for the string OK and for nothing else. *)
Lemma strict_equals_string (r : reply) (s : jsstring) :
  strict_equals (val r) (VStr s) =
    match r with
    | RBulk t => if decide (t = s) then true else false
    | _ => false
    end.
Proof. destruct r; simpl; try reflexivity. apply jsstring_eqb_decide. Qed.

(** [result === 1] holds for the integer 1 and for nothing else. *)
Lemma strict_equals_one (r : reply) :
  strict_equals (val r) (VNum (Dec 1 0)) =
    match r with
    | RInt 1 => true
    | _ => false
    end.
Proof.
  destruct r as [|z| |]; simpl; try reflexivity.
  unfold Number.dec_eqb. simpl. rewrite Z.mul_1_r.
  destruct z as [|[p|p|]|p]; reflexivity.
Qed.

(** An iteratee that never throws maps the whole array. *)
Lemma arrayMap_pure {A B} (f : A -> B) (array : list A) :
  arrayMap array (fun x => Normal (f x)) = Normal (map f array).
Proof. induction array as [|x l IH]; simpl; [|rewrite IH]; reflexivity. Qed.

(** [arrayMap] succeeds exactly when the iteratee succeeds on every element,
    and then the results stand at the positions of their arguments. *)
Lemma arrayMap_Normal {A B} (f : A -> completion B) (array : list A) (ys : list B) :
  arrayMap array f = Normal ys <-> Forall2 (fun x y => f x = Normal y) array ys.
Proof.
  revert ys. induction array as [|x l IH]; intros ys; simpl.
  - split; [intros [= <-]; constructor | intros Hf; inversion Hf; reflexivity].
  - destruct (f x) as [y|e] eqn:Ex.
    + destruct (arrayMap l f) as [zs|e] eqn:El.
      * split.
        -- intros [= <-]. constructor; [exact Ex | apply IH; reflexivity].
        -- intros Hf. inversion Hf as [|? y' ? zs' Hy Hrest]; subst.
           rewrite Ex in Hy. injection Hy as <-.
           apply IH in Hrest. injection Hrest as <-. reflexivity.
      * split; [discriminate|].
        intros Hf. inversion Hf as [|? y' ? zs' Hy Hrest]; subst.
        apply IH in Hrest. discriminate.
    + split; [discriminate|].
      intros Hf. inversion Hf as [|? y' ? zs' Hy Hrest]; subst. congruence.
Qed.

(** [arrayMap] fails with the exception of the first element that throws. *)
Lemma arrayMap_Throw {A B} (f : A -> completion B) (array : list A) (e : exn) :
  arrayMap array f = Throw e <->
  exists before x after,
    array = before ++ x :: after /\
    Forall (fun b => exists y, f b = Normal y) before /\ f x = Throw e.
Proof.
  induction array as [|a l IH]; simpl.
  - split; [discriminate|]. intros (before & x & after & Heq & _).
    destruct before; discriminate.
  - destruct (f a) as [y|e'] eqn:Ea.
    + destruct (arrayMap l f) as [zs|e''] eqn:El.
      * split; [discriminate|].
        intros (before & x & after & Heq & Hb & Hx).
        destruct before as [|b before]; simpl in Heq; injection Heq as -> ->.
        -- congruence.
        -- inversion Hb; subst.
           assert (Normal zs = Throw e) as Hbad; [|discriminate Hbad].
           apply IH. eauto 6.
      * split.
        -- intros [= ->]. destruct IH as [IH _].
           destruct (IH eq_refl) as (before & x & after & -> & Hb & Hx).
           exists (a :: before), x, after. repeat split; eauto.
        -- intros (before & x & after & Heq & Hb & Hx).
           destruct before as [|b before]; simpl in Heq; injection Heq as -> ->.
           ++ congruence.
           ++ inversion Hb; subst. destruct IH as [_ IH]. apply IH. eauto 6.
    + split.
      * intros [= ->]. exists [], a, l. repeat split; auto.
      * intros (before & x & after & Heq & Hb & Hx).
        destruct before as [|b before]; simpl in Heq; injection Heq as -> ->.
        -- congruence.
        -- inversion Hb as [|? ? [y Hy] ?]; subst. congruence.
Qed.

(** JSON.parse either returns a value or throws a SyntaxError. *)
Lemma JSON_parse_cases (text : jsval) :
  JSON_parse text =
    match Parse.parse_text (ToString text) with
    | Some v => Normal v
    | None => Throw SyntaxError
    end.
Proof. reflexivity. Qed.

(** JSON.parse(null) is null: ToString gives the text of the literal. *)
Lemma JSON_parse_null : JSON_parse VNull = Normal VNull.
Proof. reflexivity. Qed.

(** JSON.stringify gives undefined for undefined alone, and a string for
    every other value. *)
Lemma JSON_stringify_undefined (value : jsval) :
  JSON_stringify value = VUndefined <-> value = VUndefined.
Proof.
  unfold JSON_stringify.
  destruct value as [| |[|]| | | |]; simpl; split; intros E; try discriminate; reflexivity.
Qed.

Lemma JSON_stringify_string (value : jsval) :
  value <> VUndefined -> exists text, JSON_stringify value = VStr text.
Proof.
  unfold JSON_stringify.
  destruct value as [| |[|]| | | |]; simpl; intros Hne; try contradiction; eauto.
Qed.

(** ** The constructor *)

(** The loop fills the mapping as [bind_command] says and writes down the
    entries it meets, each once, in order. *)
Lemma construct_loop (this : handle) (table : list string) :
  forall (m : gmap string invoker) (done : list string),
    foldl (fun st command => (bind_command this (fst st) command, snd st ++ [command]))
          (m, done) table
    = (foldl (bind_command this) m table, done ++ table).
Proof.
  induction table as [|command table IH]; intros m done; simpl.
  - rewrite app_nil_r. reflexivity.
  - rewrite IH, <- app_assoc. reflexivity.
Qed.

Lemma construct_cmds (this : handle) :
  cmds (constructor this) = foldl (bind_command this) ∅ commands.
Proof. unfold constructor, construct. cbn [cmds]. rewrite construct_loop. reflexivity. Qed.


Lemma constructor_lookup (h : handle) :
  Forall (fun command =>
            cmds (constructor h) !! command
              = Some (bind (cmd_string (createBuiltinCommand command)) h) /\
            cmds (constructor h) !! (command +:+ "Buffer")
              = Some (bind (cmd_buffer (createBuiltinCommand command)) h))
         commands.
Proof. unfold commands. repeat constructor; vm_compute; reflexivity. Qed.

(** On a constructed instance, a table name leads to its text invoker. *)
Lemma invoke_constructor `{Transport} (h : handle) (command : string)
    (arguments : list arg) (w : wire) :
  command ∈ commands ->
  invoke (constructor h) command arguments w =
    (Normal (fst (sendCommand h (text_command command arguments) w)),
     snd (sendCommand h (text_command command arguments) w)).
Proof.
  intros Hin. unfold invoke.
  pose proof (constructor_lookup h) as Hall.
  rewrite Forall_forall in Hall. destruct (Hall _ Hin) as [-> _].
  reflexivity.
Qed.

Ltac in_table := unfold commands; set_solver.

(** Unfold a facade method on a constructed instance down to the command it
    sends. *)
Ltac facade :=
  intros ?w; unfold and_then, lift, ret;
  try rewrite arrayMap_pure;
  rewrite invoke_constructor by in_table.

(** A method of the shape [cmd(...arguments)] followed by a result step. *)
Lemma facade_sends_one `{Transport} (h : handle) (command : string)
    (arguments : list arg) (marshal : promise reply -> promise jsval) :
  command ∈ commands ->
  sends_one (p <- invoke (constructor h) command arguments;; ret (marshal p)) h
    (text_command command arguments) marshal.
Proof.
  intros Hin w. unfold and_then, ret.
  rewrite invoke_constructor by exact Hin. reflexivity.
Qed.

(** Over a recording transport, [sends_one] says what is on the wire after
    the call and what the caller gets. *)
Lemma sends_one_recorded (script : Command -> promise reply)
    (m : @action (recording script) (promise jsval)) (h : handle) (c : Command)
    (marshal : promise reply -> promise jsval) :
  @sends_one (recording script) m h c marshal ->
  frames_of script m = [(h, c)] /\ result_of script m = Normal (marshal (script c)).
Proof.
  intros Hm. unfold frames_of, result_of. rewrite (Hm []). split; reflexivity.
Qed.

Ltac sends_as_written :=
  eexists; apply facade_sends_one; in_table.

(** ** The marshaling contracts *)

Section Contracts.

Context `{Transport}.

(** C1. Array append and array insert hand the bound invoker the fixed
    prefix as given (key and path; key, path and index), followed by
    [JSON.stringify] of each trailing element, one argument per element, in
    the caller's order, for any number of trailing elements. *)
Theorem variadic_elements_serialized (h : handle) (key path index : jsval)
    (elements : list jsval) :
  sends_one (jsonArrappend (constructor h) (key :: path :: elements)) h
    (text_command "JSON.ARRAPPEND"
       ([Arg key; Arg path] ++ map (fun element => Arg (JSON_stringify element)) elements))
    as_value
  /\
  sends_one (jsonArrinsert (constructor h) (key :: path :: index :: elements)) h
    (text_command "JSON.ARRINSERT"
       ([Arg key; Arg path; Arg index]
          ++ map (fun element => Arg (JSON_stringify element)) elements))
    as_value.
Proof.
  split.
  - unfold jsonArrappend. facade. simpl. rewrite map_map. reflexivity.
  - unfold jsonArrinsert. facade. simpl. rewrite map_map. reflexivity.
Qed.

(** C2. jsonSet sends key, path and [JSON.stringify(value)] to JSON.SET; the
    promise is fulfilled with true exactly when the reply is the string OK,
    and for every other reply it is rejected with an Error whose message is
    the reply. *)
Theorem jsonSet_contract (h : handle) (key path value : jsval) :
  sends_one (jsonSet (constructor h) key path value) h
    (text_command "JSON.SET" [Arg key; Arg path; Arg (JSON_stringify value)])
    (fun p => match p with
              | Fulfilled (RBulk s) =>
                  if decide (s = str "OK") then Fulfilled (VBool true)
                  else Rejected (Error s)
              | Fulfilled other => Rejected (Error (ToString (val other)))
              | Rejected e => Rejected e
              end).
Proof.
  unfold jsonSet. facade.
  destruct (sendCommand _ _ _) as [[r|e] w']; simpl; [|reflexivity].
  rewrite strict_equals_string.
  destruct r as [|z|s|items]; try reflexivity.
  destruct (decide (s = str "OK")); reflexivity.
Qed.

(** C3. jsonGet sends key and path as given to JSON.GET and settles with
    [JSON.parse] of the reply: null for a null reply, the parsed value for a
    JSON text, and a rejection with the parser's SyntaxError for a text that
    is not JSON. *)
Theorem jsonGet_contract (h : handle) (key path : jsval) :
  sends_one (jsonGet (constructor h) key path) h
    (text_command "JSON.GET" [Arg key; Arg path])
    (fun p => match p with
              | Fulfilled RNil => Fulfilled VNull
              | Fulfilled r =>
                  match Parse.parse_text (ToString (val r)) with
                  | Some v => Fulfilled v
                  | None => Rejected SyntaxError
                  end
              | Rejected e => Rejected e
              end).
Proof.
  unfold jsonGet. facade.
  destruct (sendCommand _ _ _) as [[r|e] w']; simpl; [|reflexivity].
  rewrite JSON_parse_cases.
  destruct r; try reflexivity; simpl;
    destruct (Parse.parse_text _); reflexivity.
Qed.

(** C5. jsonDel sends key and path as given to JSON.DEL; the promise is
    fulfilled with true when the reply is the integer 1 and with false for
    every other reply. *)
Theorem jsonDel_contract (h : handle) (key path : jsval) :
  sends_one (jsonDel (constructor h) key path) h
    (text_command "JSON.DEL" [Arg key; Arg path])
    (fun p => match p with
              | Fulfilled (RInt 1) => Fulfilled (VBool true)
              | Fulfilled _ => Fulfilled (VBool false)
              | Rejected e => Rejected e
              end).
Proof.
  unfold jsonDel. facade.
  destruct (sendCommand _ _ _) as [[r|e] w']; simpl; [|reflexivity].
  rewrite strict_equals_one.
  destruct r as [|[|[p|p|]|p]| |]; reflexivity.
Qed.

(** C6. jsonMget hands all its arguments, keys and trailing path alike, to
    JSON.MGET as given.  The promise is fulfilled with an array exactly when
    every element of the reply parses, and then the value at each position
    is [JSON.parse] of the reply element at that position; when an element
    does not parse the promise is rejected with the SyntaxError. *)
Theorem jsonMget_contract (h : handle) (arguments : list jsval) :
  sends_one (jsonMget (constructor h) arguments) h
    (text_command "JSON.MGET" (map Arg arguments))
    (fun p => match p with
              | Fulfilled results =>
                  match lodash_map results JSON_parse with
                  | Normal parsed => Fulfilled (VArr parsed)
                  | Throw e => Rejected e
                  end
              | Rejected e => Rejected e
              end)
  /\
  (forall items parsed,
      lodash_map (RArray items) JSON_parse = Normal parsed <->
      Forall2 (fun item value => JSON_parse (val item) = Normal value) items parsed)
  /\
  (forall items e,
      lodash_map (RArray items) JSON_parse = Throw e <->
      e = SyntaxError /\
      exists before item after,
        items = before ++ item :: after /\
        Forall (fun b => exists value, JSON_parse (val b) = Normal value) before /\
        JSON_parse (val item) = Throw SyntaxError).
Proof.
  split; [|split].
  - unfold jsonMget. facade.
    destruct (sendCommand _ _ _) as [[r|e] w']; simpl; [|reflexivity].
    change (fun value : jsval => JSON_parse value) with JSON_parse.
    destruct (lodash_map r JSON_parse); reflexivity.
  - intros items parsed. simpl. rewrite arrayMap_Normal.
    apply Forall2_fmap_l.
  - intros items e. simpl. rewrite arrayMap_Throw. split.
    + intros (before & x & after & Heq & Hb & Hx).
      assert (e = SyntaxError) as ->.
      { rewrite JSON_parse_cases in Hx.
        destruct (Parse.parse_text _); congruence. }
      split; [reflexivity|].
      apply fmap_app_inv in Heq as (before' & rest & -> & Hrest & ->).
      symmetry in Hrest. apply fmap_cons_inv in Hrest as (item & after' & -> & -> & ->).
      exists before', item, after'. repeat split; [|exact Hx].
      apply Forall_forall. intros b Hin. rewrite Forall_forall in Hb.
      apply Hb. apply list_elem_of_fmap_2. exact Hin.
    + intros (-> & before & item & after & -> & Hb & Hx).
      exists (map val before), (val item), (map val after).
      repeat split; [| |exact Hx].
      * rewrite fmap_app. reflexivity.
      * apply Forall_forall. intros v Hin.
        apply list_elem_of_fmap_1 in Hin as (b & -> & Hin).
        rewrite Forall_forall in Hb. apply Hb. exact Hin.
Qed.


(** The object-keys method hands the client object itself to the invoker
    before key and path; its sibling jsonObjlen hands over key and path. *)
Lemma jsonobjkeys_sends_this (h : handle) (key path : jsval) :
  sends_one (jsonobjkeys (constructor h) key path) h
    (text_command "JSON.OBJKEYS" [ArgThis h; Arg key; Arg path]) as_value
  /\
  sends_one (jsonObjlen (constructor h) key path) h
    (text_command "JSON.OBJLEN" [Arg key; Arg path]) as_value.
Proof.
  split; [unfold jsonobjkeys | unfold jsonObjlen];
    apply facade_sends_one; in_table.
Qed.

(** C8. Serialization is per argument.  Key, path, index, range bounds and
    the numeric operands reach the invoker as given; the value of jsonSet,
    the string of jsonStrappend, the scalar of jsonArrindex and the trailing
    elements of jsonArrappend and jsonArrinsert reach it through
    [JSON.stringify], and nothing else does. *)
Theorem serialization_is_selective (h : handle)
    (key path value number suffix scalar index start end_ : jsval)
    (keys elements : list jsval) :
  sends (jsonGet (constructor h) key path) h
    (text_command "JSON.GET" [Arg key; Arg path]) /\
  sends (jsonMget (constructor h) keys) h
    (text_command "JSON.MGET" (map Arg keys)) /\
  sends (jsonDel (constructor h) key path) h
    (text_command "JSON.DEL" [Arg key; Arg path]) /\
  sends (jsonobjkeys (constructor h) key path) h
    (text_command "JSON.OBJKEYS" [ArgThis h; Arg key; Arg path]) /\
  sends (jsonObjlen (constructor h) key path) h
    (text_command "JSON.OBJLEN" [Arg key; Arg path]) /\
  sends (jsonType (constructor h) key path) h
    (text_command "JSON.TYPE" [Arg key; Arg path]) /\
  sends (jsonStrlen (constructor h) key path) h
    (text_command "JSON.STRLEN" [Arg key; Arg path]) /\
  sends (jsonArrlen (constructor h) key path) h
    (text_command "JSON.ARRLEN" [Arg key; Arg path]) /\
  sends (jsonNumincrby (constructor h) key path number) h
    (text_command "JSON.NUMINCRBY" [Arg key; Arg path; Arg number]) /\
  sends (jsonNummultby (constructor h) key path number) h
    (text_command "JSON.NUMMULTBY" [Arg key; Arg path; Arg number]) /\
  sends (jsonArrpop (constructor h) key path index) h
    (text_command "JSON.ARRPOP" [Arg key; Arg path; Arg index]) /\
  sends (jsonArrtrim (constructor h) key path start end_) h
    (text_command "JSON.ARRTRIM" [Arg key; Arg path; Arg start; Arg end_]) /\
  sends (jsonSet (constructor h) key path value) h
    (text_command "JSON.SET" [Arg key; Arg path; Arg (JSON_stringify value)]) /\
  sends (jsonStrappend (constructor h) key path suffix) h
    (text_command "JSON.STRAPPEND" [Arg key; Arg path; Arg (JSON_stringify suffix)]) /\
  sends (jsonArrindex (constructor h) key path scalar) h
    (text_command "JSON.ARRINDEX" [Arg key; Arg path; Arg (JSON_stringify scalar)]) /\
  sends (jsonArrappend (constructor h) (key :: path :: elements)) h
    (text_command "JSON.ARRAPPEND"
       ([Arg key; Arg path] ++ map (fun element => Arg (JSON_stringify element)) elements)) /\
  sends (jsonArrinsert (constructor h) (key :: path :: index :: elements)) h
    (text_command "JSON.ARRINSERT"
       ([Arg key; Arg path; Arg index]
          ++ map (fun element => Arg (JSON_stringify element)) elements)).
Proof.
  repeat split.
  1-15: sends_as_written.
  - exists as_value. unfold jsonArrappend. facade. simpl. rewrite map_map. reflexivity.
  - exists as_value. unfold jsonArrinsert. facade. simpl. rewrite map_map. reflexivity.
Qed.

(** C9. jsonArrpop sends key, path and index as given to JSON.ARRPOP and
    settles with [JSON.parse] of the reply; for a null reply the promise is
    fulfilled with null and no parse error is raised. *)
Theorem jsonArrpop_contract (h : handle) (key path index : jsval) :
  sends_one (jsonArrpop (constructor h) key path index) h
    (text_command "JSON.ARRPOP" [Arg key; Arg path; Arg index])
    (fun p => match p with
              | Fulfilled RNil => Fulfilled VNull
              | Fulfilled r =>
                  match Parse.parse_text (ToString (val r)) with
                  | Some v => Fulfilled v
                  | None => Rejected SyntaxError
                  end
              | Rejected e => Rejected e
              end).
Proof.
  unfold jsonArrpop. facade.
  destruct (sendCommand _ _ _) as [[r|e] w']; simpl; [|reflexivity].
  rewrite JSON_parse_cases.
  destruct r; try reflexivity; simpl;
    destruct (Parse.parse_text _); reflexivity.
Qed.

(** C10 (amended). jsonSet does not validate its value: it calls
    [JSON.stringify] on it and nothing else.  What the encoder returns is
    the third argument sent, as it is: for undefined, a function or a symbol
    that is undefined, no text, and the call returns normally.  What the
    encoder throws, a TypeError for a bigint or a cyclic structure, comes out
    of jsonSet before any command is sent.  Among the document values
    undefined is the only one without a text. *)
Theorem jsonSet_does_not_validate (h : handle) (key path : jsval) :
  (forall value w,
      jsonSet_any (constructor h) key path (Document value) w
      = jsonSet (constructor h) key path value w) /\
  (forall value _value,
      JSON_stringify_any value = Normal _value ->
      sends (jsonSet_any (constructor h) key path value) h
        (text_command "JSON.SET" [Arg key; Arg path; Arg _value]) /\
      returns_normally (jsonSet_any (constructor h) key path value)) /\
  (forall value e w,
      JSON_stringify_any value = Throw e ->
      jsonSet_any (constructor h) key path value w = (Throw e, w)) /\
  Forall (fun value =>
            sends (jsonSet_any (constructor h) key path value) h
              (text_command "JSON.SET" [Arg key; Arg path; Arg VUndefined]))
         [Document VUndefined; FunctionValue; SymbolValue] /\
  (forall z w,
      jsonSet_any (constructor h) key path (BigInt z) w = (Throw TypeError, w)) /\
  (forall w,
      jsonSet_any (constructor h) key path Circular w = (Throw TypeError, w)) /\
  (forall value : jsval, JSON_stringify value = VUndefined <-> value = VUndefined) /\
  (forall value : jsval, value = VUndefined \/ exists text, JSON_stringify value = VStr text).
Proof.
  assert (forall value _value,
            JSON_stringify_any value = Normal _value ->
            sends (jsonSet_any (constructor h) key path value) h
              (text_command "JSON.SET" [Arg key; Arg path; Arg _value])) as Hsends.
  { intros value _value Henc.
    exists (fun p => promise_then p (fun result =>
                       if strict_equals (val result) (VStr (str "OK"))
                       then Normal (VBool true)
                       else Throw (Error (ToString (val result))))).
    intros w. unfold jsonSet_any, and_then, lift, ret. rewrite Henc.
    rewrite invoke_constructor by in_table. reflexivity. }
  repeat split.
  - apply Hsends. assumption.
  - intros w. eexists. unfold jsonSet_any, and_then, lift, ret.
    match goal with Henc : JSON_stringify_any _ = _ |- _ => rewrite Henc end.
    rewrite invoke_constructor by in_table. reflexivity.
  - intros value e w Henc. unfold jsonSet_any, and_then, lift. rewrite Henc. reflexivity.
  - repeat constructor; apply Hsends; reflexivity.
  - apply JSON_stringify_undefined.
  - apply JSON_stringify_undefined.
  - intros value. destruct value; [left; reflexivity|right..];
      apply JSON_stringify_string; discriminate.
Qed.

End Contracts.

(** ** The facade at concrete inputs *)

(** C4. On [jsonobjkeys("doc", ".")] the invoker of JSON.OBJKEYS receives
    three arguments, the client object first, where two are expected; the
    sibling [jsonObjlen("doc", ".")] sends key and path alone.  The reply is
    handed back as it came. *)
Theorem jsonobjkeys_failing_input :
  let script := fun _ : Command => Fulfilled (RArray [RBulk (str "a"); RBulk (str "b")]) in
  let doc := VStr (str "doc") in
  let root := VStr (str ".") in
  frames_of script (jsonobjkeys (constructor 0%nat) doc root)
    = [(0%nat, text_command "JSON.OBJKEYS" [ArgThis 0%nat; Arg doc; Arg root])] /\
  frames_of script (jsonObjlen (constructor 0%nat) doc root)
    = [(0%nat, text_command "JSON.OBJLEN" [Arg doc; Arg root])] /\
  result_of script (jsonobjkeys (constructor 0%nat) doc root)
    = Normal (Fulfilled (VArr [VStr (str "a"); VStr (str "b")])).
Proof. repeat split; vm_compute; reflexivity. Qed.

(** Counterexample to C10 read for every value that has no JSON text: a
    bigint has none, yet [jsonSet("doc", ".", 10n)] hands no argument to any
    invoker, undefined or other; the TypeError of [JSON.stringify] is raised
    first and nothing is sent.  The same for a cyclic structure. *)
Lemma jsonSet_bigint_throws :
  result_of (always (RBulk (str "OK")))
    (jsonSet_any (constructor 0%nat) (VStr (str "doc")) (VStr (str ".")) (BigInt 10))
    = Throw TypeError /\
  frames_of (always (RBulk (str "OK")))
    (jsonSet_any (constructor 0%nat) (VStr (str "doc")) (VStr (str ".")) (BigInt 10))
    = [] /\
  result_of (always (RBulk (str "OK")))
    (jsonSet_any (constructor 0%nat) (VStr (str "doc")) (VStr (str ".")) Circular)
    = Throw TypeError.
Proof. repeat split. Qed.

(** *** The runtime on small inputs *)

Example stringify_object :
  JSON_stringify
    (VObj [(str "a", VNum (Dec 15 (-1))); (str "b", VUndefined);
           (str "c", VArr [VNull; VUndefined; VBool true; VNum NaN])])
  = VStr (str "{" ++ quoted "a" ++ str ":1.5," ++ quoted "c"
            ++ str ":[null,null,true,null]}").
Proof. reflexivity. Qed.

Example stringify_string_escapes :
  JSON_stringify (VStr [97; 34; 92; 10; 1; 55357; 56832; 55357]%N)
  = VStr ([34; 97] ++ [92; 34] ++ [92; 92] ++ str "\n" ++ str "\u0001"
            ++ [55357; 56832] ++ str "\ud83d" ++ [34])%N.
Proof. reflexivity. Qed.

Example parse_object :
  JSON_parse
    (VStr (str " { " ++ quoted "b" ++ str " : [1, -2.50e1, true] , " ++ quoted "10"
             ++ str ":null," ++ quoted "2" ++ str ":{}," ++ quoted "b" ++ str ":"
             ++ quoted "x\u0041\n" ++ str "} "))
  = Normal (VObj [(str "2", VObj []); (str "10", VNull);
                  (str "b", VStr [120; 65; 10]%N)]).
Proof. reflexivity. Qed.

Example parse_numbers :
  map (fun text => JSON_parse (VStr (str text))) ["0"; "-0.5"; "1e3"; "12.50E-1"]
  = [Normal (VNum (Dec 0 0)); Normal (VNum (Dec (-5) (-1)));
     Normal (VNum (Dec 1 3)); Normal (VNum (Dec 1250 (-3)))].
Proof. reflexivity. Qed.

Example parse_malformed :
  Forall (fun text => JSON_parse (VStr (str text)) = Throw SyntaxError)
    [""; "{"; "[1,]"; "[1 2]"; "01"; "1."; ".5"; "+1"; "nul"; "truefalse";
     "undefined"; "NaN"; "'a'"; "1 2"; "[]]"; "{,}"].
Proof. repeat constructor. Qed.

Example parse_coerces_its_argument :
  JSON_parse VNull = Normal VNull /\
  JSON_parse (VBool true) = Normal (VBool true) /\
  JSON_parse (VNum (Dec 15 (-1))) = Normal (VNum (Dec 15 (-1))) /\
  JSON_parse (VArr [VNum (Dec 7 0)]) = Normal (VNum (Dec 7 0)) /\
  JSON_parse VUndefined = Throw SyntaxError /\
  JSON_parse (VArr [VNull]) = Throw SyntaxError /\
  JSON_parse (VObj []) = Throw SyntaxError.
Proof. repeat split. Qed.

Example number_to_string :
  map Number.to_string
    [Dec 0 5; Dec 15 (-1); Dec (-1200) (-10); Dec 1 21; Dec 123 18; Dec 1 (-6);
     Dec 1 (-7); NaN; Infinity true]
  = map str ["0"; "1.5"; "-1.2e-7"; "1e+21"; "123000000000000000000"; "0.000001";
             "1e-7"; "NaN"; "-Infinity"].
Proof. reflexivity. Qed.

Example parseFloat_prefix :
  map (fun text => parseFloat (VStr (str text)))
    ["15"; "  1.5e3x"; "1."; ".5"; "-.5e+"; "-Infinity"; "abc"; ""]
  = [VNum (Dec 15 0); VNum (Dec 15 2); VNum (Dec 1 0); VNum (Dec 5 (-1));
     VNum (Dec (-5) (-1)); VNum (Infinity true); VNum NaN; VNum NaN].
Proof. reflexivity. Qed.

(** *** The facade over a recording transport *)

Example jsonSet_acknowledged :
  let doc := VStr (str "doc") in
  let root := VStr (str ".") in
  let value := VObj [(str "n", VNum (Dec 1 0))] in
  frames_of (always (RBulk (str "OK"))) (jsonSet (constructor 3%nat) doc root value)
    = [(3%nat, text_command "JSON.SET"
                 [Arg doc; Arg root; Arg (VStr (str "{" ++ quoted "n" ++ str ":1}"))])] /\
  result_of (always (RBulk (str "OK"))) (jsonSet (constructor 3%nat) doc root value)
    = Normal (Fulfilled (VBool true)).
Proof. split; vm_compute; reflexivity. Qed.

Example jsonSet_refused :
  let doc := VStr (str "doc") in
  let root := VStr (str ".") in
  result_of (always (RBulk (str "QUEUED"))) (jsonSet (constructor 3%nat) doc root VNull)
    = Normal (Rejected (Error (str "QUEUED"))) /\
  result_of (always (RInt 1)) (jsonSet (constructor 3%nat) doc root VNull)
    = Normal (Rejected (Error (str "1"))) /\
  result_of (always RNil) (jsonSet (constructor 3%nat) doc root VNull)
    = Normal (Rejected (Error (str "null"))) /\
  result_of (fun _ => Rejected (ReplyError (str "ERR"))) (jsonSet (constructor 3%nat) doc root VNull)
    = Normal (Rejected (ReplyError (str "ERR"))).
Proof. repeat split; vm_compute; reflexivity. Qed.

Example jsonSet_undefined_value :
  let doc := VStr (str "doc") in
  let root := VStr (str ".") in
  frames_of (always (RBulk (str "OK"))) (jsonSet (constructor 3%nat) doc root VUndefined)
    = [(3%nat, text_command "JSON.SET" [Arg doc; Arg root; Arg VUndefined])].
Proof. vm_compute. reflexivity. Qed.

Example jsonGet_replies :
  let doc := VStr (str "doc") in
  let root := VStr (str ".") in
  result_of (always RNil) (jsonGet (constructor 3%nat) doc root)
    = Normal (Fulfilled VNull) /\
  result_of (always (RBulk (str "[1,2]"))) (jsonGet (constructor 3%nat) doc root)
    = Normal (Fulfilled (VArr [VNum (Dec 1 0); VNum (Dec 2 0)])) /\
  result_of (always (RBulk (str "[1,2"))) (jsonGet (constructor 3%nat) doc root)
    = Normal (Rejected SyntaxError).
Proof. repeat split; vm_compute; reflexivity. Qed.

Example jsonMget_two_keys :
  let a := VStr (str "a") in
  let b := VStr (str "b") in
  let root := VStr (str ".") in
  let script := always (RArray [RBulk (str "{}"); RNil]) in
  frames_of script (jsonMget (constructor 3%nat) [a; b; root])
    = [(3%nat, text_command "JSON.MGET" [Arg a; Arg b; Arg root])] /\
  result_of script (jsonMget (constructor 3%nat) [a; b; root])
    = Normal (Fulfilled (VArr [VObj []; VNull])).
Proof. split; vm_compute; reflexivity. Qed.

Example jsonDel_replies :
  let doc := VStr (str "doc") in
  let root := VStr (str ".") in
  result_of (always (RInt 1)) (jsonDel (constructor 3%nat) doc root)
    = Normal (Fulfilled (VBool true)) /\
  result_of (always (RInt 0)) (jsonDel (constructor 3%nat) doc root)
    = Normal (Fulfilled (VBool false)) /\
  result_of (always (RInt 2)) (jsonDel (constructor 3%nat) doc root)
    = Normal (Fulfilled (VBool false)) /\
  result_of (always (RBulk (str "1"))) (jsonDel (constructor 3%nat) doc root)
    = Normal (Fulfilled (VBool false)).
Proof. repeat split; vm_compute; reflexivity. Qed.

Example jsonArrappend_three_elements :
  let doc := VStr (str "doc") in
  let path := VStr (str ".list") in
  frames_of (always (RInt 3))
    (jsonArrappend (constructor 3%nat)
       [doc; path; VNum (Dec 1 0); VStr (str "two"); VArr [VBool false]])
    = [(3%nat, text_command "JSON.ARRAPPEND"
                 [Arg doc; Arg path; Arg (VStr (str "1")); Arg (VStr (quoted "two"));
                  Arg (VStr (str "[false]"))])].
Proof. vm_compute. reflexivity. Qed.

Example jsonArrinsert_keeps_index :
  let doc := VStr (str "doc") in
  let path := VStr (str ".list") in
  frames_of (always (RInt 3))
    (jsonArrinsert (constructor 3%nat) [doc; path; VNum (Dec 0 0); VStr (str "x")])
    = [(3%nat, text_command "JSON.ARRINSERT"
                 [Arg doc; Arg path; Arg (VNum (Dec 0 0)); Arg (VStr (quoted "x"))])].
Proof. vm_compute. reflexivity. Qed.

Example jsonNumincrby_result :
  let doc := VStr (str "doc") in
  let path := VStr (str ".n") in
  frames_of (always (RBulk (str "15"))) (jsonNumincrby (constructor 3%nat) doc path (VNum (Dec 5 0)))
    = [(3%nat, text_command "JSON.NUMINCRBY" [Arg doc; Arg path; Arg (VNum (Dec 5 0))])] /\
  result_of (always (RBulk (str "15"))) (jsonNumincrby (constructor 3%nat) doc path (VNum (Dec 5 0)))
    = Normal (Fulfilled (VNum (Dec 15 0))).
Proof. split; vm_compute; reflexivity. Qed.

Example jsonArrpop_empty_array :
  result_of (always RNil) (jsonArrpop (constructor 3%nat) (VStr (str "doc")) (VStr (str ".list")) VUndefined)
    = Normal (Fulfilled VNull).
Proof. vm_compute. reflexivity. Qed.

(** An object that was not built by the constructor has no invokers: the
    call itself throws. *)
Example unbound_instance_throws :
  result_of (always RNil) (jsonGet {| this := 3%nat; cmds := ∅ |} VNull VNull)
    = Throw TypeError.
Proof. vm_compute. reflexivity. Qed.

(** * Further properties of the facade *)

(** The two variadic methods on any argument list, however short. *)
Lemma jsonArrappend_any `{Transport} (h : handle) (arguments : list jsval) :
  sends_one (jsonArrappend (constructor h) arguments) h
    (text_command "JSON.ARRAPPEND"
       (map Arg (take 2 arguments ++ map JSON_stringify (drop 2 arguments))))
    as_value.
Proof. unfold jsonArrappend. facade. reflexivity. Qed.

Lemma jsonArrinsert_any `{Transport} (h : handle) (arguments : list jsval) :
  sends_one (jsonArrinsert (constructor h) arguments) h
    (text_command "JSON.ARRINSERT"
       (map Arg (take 3 arguments ++ map JSON_stringify (drop 3 arguments))))
    as_value.
Proof. unfold jsonArrinsert. facade. reflexivity. Qed.

Lemma promise_then_Rejected {A B} (f : A -> completion B) (e : exn) :
  promise_then (Rejected e) f = Rejected e.
Proof. reflexivity. Qed.

(** Method by method: the command each one sends. *)
Lemma facade_calls_shape `{Transport} (h : handle) (a b c d : jsval) (l : list jsval) :
  Forall2 (one_text_command h) (facade_calls (constructor h) a b c d l)
    [ "JSON.SET"; "JSON.GET"; "JSON.MGET"; "JSON.DEL"; "JSON.OBJKEYS"; "JSON.OBJLEN";
      "JSON.TYPE"; "JSON.NUMINCRBY"; "JSON.NUMMULTBY"; "JSON.STRAPPEND"; "JSON.STRLEN";
      "JSON.ARRAPPEND"; "JSON.ARRINDEX"; "JSON.ARRINSERT"; "JSON.ARRLEN"; "JSON.ARRPOP";
      "JSON.ARRTRIM" ].
Proof.
  unfold facade_calls.
  repeat apply List.Forall2_cons; try apply List.Forall2_nil.
  all: try (eexists _, _; split; [apply facade_sends_one; in_table | reflexivity]).
  - eexists _, _; split; [apply jsonArrappend_any | reflexivity].
  - eexists _, _; split; [apply jsonArrinsert_any | reflexivity].
Qed.

(** X1. The five plain read-outs (object length, type, string length, array
    length, array trim) send their arguments as given and hand the reply back
    as it came: nothing is parsed, so no reply can make them fail, and a
    rejection of the transport is theirs. *)
Theorem plain_methods_hand_the_reply_back `{Transport} (h : handle)
    (key path start end_ : jsval) :
  let unchanged := fun p : promise reply =>
                     match p with
                     | Fulfilled r => Fulfilled (val r)
                     | Rejected e => Rejected e
                     end in
  sends_one (jsonObjlen (constructor h) key path) h
    (text_command "JSON.OBJLEN" [Arg key; Arg path]) unchanged /\
  sends_one (jsonType (constructor h) key path) h
    (text_command "JSON.TYPE" [Arg key; Arg path]) unchanged /\
  sends_one (jsonStrlen (constructor h) key path) h
    (text_command "JSON.STRLEN" [Arg key; Arg path]) unchanged /\
  sends_one (jsonArrlen (constructor h) key path) h
    (text_command "JSON.ARRLEN" [Arg key; Arg path]) unchanged /\
  sends_one (jsonArrtrim (constructor h) key path start end_) h
    (text_command "JSON.ARRTRIM" [Arg key; Arg path; Arg start; Arg end_]) unchanged.
Proof.
  cbv zeta. repeat split; apply (facade_sends_one h _ _ as_value); in_table.
Qed.

(** X2. No method swallows or rewraps a failure of the transport: whenever
    the transport rejects the command a method sends, whatever it does with
    other commands, the promise of that method is rejected with the very
    same reason, and the method itself does not throw.  This holds for each
    of the seventeen methods. *)
Theorem rejections_pass_through `{Transport} (h : handle) (a b c d : jsval)
    (l : list jsval) :
  Forall (fun m =>
            exists cmd marshal,
              sends_one m h cmd marshal /\
              forall e w,
                fst (sendCommand h cmd w) = Rejected e ->
                m w = (Normal (Rejected e), snd (sendCommand h cmd w)))
         (facade_calls (constructor h) a b c d l).
Proof.
  pose proof (facade_calls_shape h a b c d l) as Hshape.
  induction Hshape as [|m command ms names Hm _ IH]; constructor; [|exact IH].
  destruct Hm as (arguments & marshal & Hsend & Hpass).
  exists (text_command command arguments), marshal. split; [exact Hsend|].
  intros e w Hrej. rewrite (Hsend w), Hrej, Hpass. reflexivity.
Qed.

(** A store that refuses writes only: jsonSet fails with its reason while
    jsonGet on the same client goes through. *)
Example only_the_refused_command_fails :
  let script := fun cmd : Command =>
                  if decide (name cmd = "JSON.SET")
                  then Rejected (ReplyError (str "READONLY"))
                  else Fulfilled RNil in
  result_of script (jsonSet (constructor 1%nat) (VStr (str "doc")) (VStr (str ".")) VNull)
    = Normal (Rejected (ReplyError (str "READONLY"))) /\
  result_of script (jsonGet (constructor 1%nat) (VStr (str "doc")) (VStr (str ".")))
    = Normal (Fulfilled VNull).
Proof. split; vm_compute; reflexivity. Qed.

(** X3. Every method sends one command and each method its own: the
    seventeen command names are pairwise different names of the table, in
    the text encoding, through the client the method was called on.  The
    table's JSON.DEBUG, JSON.FORGET and JSON.RESP get their invokers in the
    constructor and no method ever sends them. *)
Theorem each_method_sends_its_own_command `{Transport} (h : handle) (a b c d : jsval)
    (l : list jsval) :
  let sent :=
    [ "JSON.SET"; "JSON.GET"; "JSON.MGET"; "JSON.DEL"; "JSON.OBJKEYS"; "JSON.OBJLEN";
      "JSON.TYPE"; "JSON.NUMINCRBY"; "JSON.NUMMULTBY"; "JSON.STRAPPEND"; "JSON.STRLEN";
      "JSON.ARRAPPEND"; "JSON.ARRINDEX"; "JSON.ARRINSERT"; "JSON.ARRLEN"; "JSON.ARRPOP";
      "JSON.ARRTRIM" ] in
  Forall2 (fun m command =>
             exists arguments marshal,
               sends_one m h
                 {| name := command; replyEncoding := Utf8; args := arguments |} marshal)
          (facade_calls (constructor h) a b c d l) sent /\
  NoDup sent /\
  Forall (fun command => command ∈ commands) sent /\
  list_difference commands sent = ["JSON.DEBUG"; "JSON.FORGET"; "JSON.RESP"].
Proof.
  cbv zeta. split; [|split; [|split]].
  - eapply Forall2_impl; [apply facade_calls_shape|].
    intros m command (arguments & marshal & Hsend & _). eauto.
  - refine (bool_decide_unpack _ _). vm_compute. exact I.
  - repeat constructor; in_table.
  - vm_compute. reflexivity.
Qed.

(** X4. The variadic methods on any argument list, also one shorter than
    the fixed prefix: every argument of the caller gives exactly one
    argument on the wire, at the same place; the first two (append) or three
    (insert) are sent as given and every later one through
    [JSON.stringify].  A call without arguments sends the bare command. *)
Theorem variadic_arguments_keep_their_places `{Transport} (h : handle)
    (arguments : list jsval) :
  exists appended inserted,
    sends_one (jsonArrappend (constructor h) arguments) h
      (text_command "JSON.ARRAPPEND" appended) as_value /\
    sends_one (jsonArrinsert (constructor h) arguments) h
      (text_command "JSON.ARRINSERT" inserted) as_value /\
    length appended = length arguments /\
    length inserted = length arguments /\
    (forall i x, arguments !! i = Some x ->
       appended !! i
         = Some (Arg (if decide (i < 2)%nat then x else JSON_stringify x))) /\
    (forall i x, arguments !! i = Some x ->
       inserted !! i
         = Some (Arg (if decide (i < 3)%nat then x else JSON_stringify x))).
Proof.
  assert (forall n, length (map Arg (take n arguments ++ map JSON_stringify (drop n arguments)))
                    = length arguments) as Hlen.
  { intros n. rewrite length_map, length_app, length_map, length_take, length_drop. lia. }
  assert (forall n i x, arguments !! i = Some x ->
            map Arg (take n arguments ++ map JSON_stringify (drop n arguments)) !! i
            = Some (Arg (if decide (i < n)%nat then x else JSON_stringify x))) as Hat.
  { intros n i x Hx. rewrite list_lookup_fmap.
    pose proof (lookup_lt_Some _ _ _ Hx) as Hi.
    destruct (decide (i < n)%nat) as [Hlt|Hge].
    - rewrite lookup_app_l by (rewrite length_take; lia).
      rewrite lookup_take_lt by exact Hlt. rewrite Hx. reflexivity.
    - rewrite lookup_app_r by (rewrite length_take; lia).
      rewrite length_take, list_lookup_fmap, lookup_drop.
      replace (n + (i - n `min` length arguments))%nat with i by lia.
      rewrite Hx. reflexivity. }
  eexists _, _.
  split; [apply jsonArrappend_any|].
  split; [apply jsonArrinsert_any|].
  split; [apply Hlen|]. split; [apply Hlen|].
  split; intros i x Hx; apply Hat; exact Hx.
Qed.

(** X5. What jsonMget makes of a reply.  A null or integer reply gives the
    empty array, not an error.  Whenever the promise is fulfilled its value
    is an array with one element per element of the reply (per code unit
    for a string reply), and a nil element of an array reply, the answer
    for a key that does not exist, stands as null at its place without
    disturbing the others. *)
Theorem jsonMget_reply_shapes `{Transport} (h : handle) (arguments : list jsval) :
  exists marshal,
    sends_one (jsonMget (constructor h) arguments) h
      (text_command "JSON.MGET" (map Arg arguments)) marshal /\
    marshal (Fulfilled RNil) = Fulfilled (VArr []) /\
    (forall z, marshal (Fulfilled (RInt z)) = Fulfilled (VArr [])) /\
    (forall r v, marshal (Fulfilled r) = Fulfilled v ->
       exists parsed, v = VArr parsed /\ length parsed = visited r) /\
    (forall items parsed i,
       marshal (Fulfilled (RArray items)) = Fulfilled (VArr parsed) ->
       items !! i = Some RNil -> parsed !! i = Some VNull).
Proof.
  exists (fun p => promise_then p (fun results =>
            match lodash_map results (fun value => JSON_parse value) with
            | Normal parsed => Normal (VArr parsed)
            | Throw e => Throw e
            end)).
  split; [apply facade_sends_one; in_table|].
  split; [reflexivity|]. split; [reflexivity|]. split.
  - intros r v. simpl.
    destruct (lodash_map r _) as [parsed|e] eqn:Hmap; [|discriminate].
    intros [= <-]. exists parsed. split; [reflexivity|].
    destruct r as [|z|s|items]; simpl in *.
    + injection Hmap as <-. reflexivity.
    + injection Hmap as <-. reflexivity.
    + apply arrayMap_Normal, Forall2_length in Hmap.
      rewrite length_map in Hmap. congruence.
    + apply arrayMap_Normal, Forall2_length in Hmap.
      rewrite length_map in Hmap. congruence.
  - intros items parsed i. simpl.
    destruct (arrayMap _ _) as [parsed'|e] eqn:Hmap; [|discriminate].
    intros [= <-] Hnil.
    apply arrayMap_Normal in Hmap.
    assert (map val items !! i = Some VNull) as Hi.
    { rewrite list_lookup_fmap, Hnil. reflexivity. }
    destruct (Forall2_lookup_l _ _ _ _ _ Hmap Hi) as (v & Hv & Hparse).
    rewrite Hv. cbv in Hparse. congruence.
Qed.

(** The constructor's loop keeps two instances key by key alike. *)
Lemma bind_command_other_client (h1 h2 : handle) (m1 m2 : gmap string invoker)
    (command : string) :
  same_table_other_client h1 h2 m1 m2 ->
  same_table_other_client h1 h2 (bind_command h1 m1 command) (bind_command h2 m2 command).
Proof.
  intros Hsame key. unfold bind_command.
  destruct (decide (command +:+ "Buffer" = key)) as [<-|Hbuf].
  - rewrite !lookup_insert_eq. simpl. auto.
  - rewrite !(lookup_insert_ne _ (command +:+ "Buffer")) by exact Hbuf.
    destruct (decide (command = key)) as [<-|Hcmd].
    + rewrite !lookup_insert_eq. simpl. auto.
    + rewrite !lookup_insert_ne by exact Hcmd. apply Hsame.
Qed.

Lemma foldl_bind_command_other_client (h1 h2 : handle) (table : list string)
    (m1 m2 : gmap string invoker) :
  same_table_other_client h1 h2 m1 m2 ->
  same_table_other_client h1 h2
    (foldl (bind_command h1) m1 table) (foldl (bind_command h2) m2 table).
Proof.
  revert m1 m2. induction table as [|command table IH]; intros m1 m2 Hsame; simpl.
  - exact Hsame.
  - apply IH, bind_command_other_client, Hsame.
Qed.

(** X6. Two instances do not share a bound invoker.  Their mappings have the
    same keys; under each key the first holds a function bound to the first
    client and the second the same function bound to the second, so a
    command issued through one instance is sent through that instance's
    client and never through the other's. *)
Theorem instances_share_no_invoker `{Transport} (h1 h2 : handle) :
  h1 <> h2 ->
  dom (cmds (constructor h1)) = dom (cmds (constructor h2)) /\
  forall key f1 f2,
    cmds (constructor h1) !! key = Some f1 ->
    cmds (constructor h2) !! key = Some f2 ->
    f1 <> f2 /\
    target f1 = target f2 /\
    forall arguments w,
      call f1 arguments w
        = (Normal (fst (sendCommand h1
                          {| name := commandName (target f1);
                             replyEncoding := fn_encoding (target f1);
                             args := arguments |} w)),
           snd (sendCommand h1
                  {| name := commandName (target f1);
                     replyEncoding := fn_encoding (target f1);
                     args := arguments |} w)).
Proof.
  intros Hne.
  assert (same_table_other_client h1 h2 (cmds (constructor h1)) (cmds (constructor h2)))
    as Hsame.
  { rewrite !construct_cmds.
    apply foldl_bind_command_other_client. intros key. rewrite !lookup_empty. exact I. }
  split.
  - apply set_eq. intros key. rewrite !elem_of_dom.
    specialize (Hsame key).
    destruct (cmds (constructor h1) !! key), (cmds (constructor h2) !! key);
      try contradiction; split; intros [? ?]; eauto; discriminate.
  - intros key f1 f2 H1 H2. specialize (Hsame key).
    rewrite H1, H2 in Hsame. destruct Hsame as (Htarget & Hb1 & Hb2).
    split; [|split].
    + intros ->. congruence.
    + exact Htarget.
    + intros arguments w. unfold call. rewrite Hb1. reflexivity.
Qed.

Lemma instances_share_no_invoker_witness :
  dom (cmds (constructor 1%nat)) = dom (cmds (constructor 2%nat)) /\
  forall key f1 f2,
    cmds (constructor 1%nat) !! key = Some f1 ->
    cmds (constructor 2%nat) !! key = Some f2 ->
    f1 <> f2 /\
    target f1 = target f2 /\
    forall arguments w,
      @call (recording (always RNil)) f1 arguments w
        = (Normal (fst (@sendCommand (recording (always RNil)) 1%nat
                          {| name := commandName (target f1);
                             replyEncoding := fn_encoding (target f1);
                             args := arguments |} w)),
           snd (@sendCommand (recording (always RNil)) 1%nat
                  {| name := commandName (target f1);
                     replyEncoding := fn_encoding (target f1);
                     args := arguments |} w)).
Proof.
  apply (@instances_share_no_invoker (recording (always RNil)) 1%nat 2%nat).
  lia.
Defined.

(** * The runtime, further *)

Import Parse Stringify ParseFloat.

(** Booleans about code units, read as facts about numbers. *)
Ltac units :=
  unfold is_digit, is_e, is_space, is_lower, is_whitespace, is_number_char,
         is_high_surrogate, is_low_surrogate, unit_eqb in *;
  repeat match goal with
         | H : _ && _ = true |- _ => apply andb_true_iff in H as [? ?]
         | H : _ || _ = true |- _ => apply orb_true_iff in H as [?|?]
         | H : _ && _ = false |- _ => apply andb_false_iff in H as [?|?]
         | H : _ || _ = false |- _ => apply orb_false_iff in H as [? ?]
         | H : (_ =? _)%N = true |- _ => apply N.eqb_eq in H
         | H : (_ =? _)%N = false |- _ => apply N.eqb_neq in H
         | H : (_ <=? _)%N = true |- _ => apply N.leb_le in H
         | H : (_ <=? _)%N = false |- _ => apply N.leb_gt in H
         | H : (_ <? _)%N = true |- _ => apply N.ltb_lt in H
         | H : (_ <? _)%N = false |- _ => apply N.ltb_ge in H
         end.

(** ** parseFloat reads a JSON number as JSON.parse does *)

Lemma scan_float_follows (lit : jsstring) :
  forall st a best n,
    after_first st = true ->
    (value_known st = true -> best = Some (num_value a)) ->
    scan_number st a lit = Some n ->
    scan_float (float_state_of st) a best lit = Some n.
Proof.
  induction lit as [|c rest IH]; intros st a best n Hst Hbest Hscan.
  - destruct st; try discriminate Hst; simpl in *;
      try discriminate Hscan; rewrite Hbest by reflexivity; exact Hscan.
  - destruct st; try discriminate Hst; simpl in *;
      repeat match type of Hscan with
             | (if ?t then _ else _) = _ => destruct t eqn:?
             end;
      try discriminate Hscan;
      try (exfalso; units; lia);
      repeat match goal with
             | |- (if ?t then _ else _) = _ => destruct t eqn:?
             end;
      try (exfalso; units; lia);
      match type of Hscan with
      | scan_number ?st' ?a' _ = _ =>
          apply (IH st' a'); [reflexivity | simpl; intros; try discriminate; auto | exact Hscan]
      end.
Qed.

Lemma digit_cases (c : code_unit) :
  is_digit c = true ->
  c = 48%N \/ c = 49%N \/ c = 50%N \/ c = 51%N \/ c = 52%N \/
  c = 53%N \/ c = 54%N \/ c = 55%N \/ c = 56%N \/ c = 57%N.
Proof. intros Hd. units. lia. Qed.

Lemma scan_float_signed (negative : bool) (rest : jsstring) (n : number) :
  scan_number NMinus
    {| n_neg := negative; n_mant := 0; n_scale := 0; n_eneg := false; n_exp := 0 |} rest
    = Some n ->
  unsigned_literal negative rest = Some n.
Proof.
  destruct rest as [|d rest]; [discriminate|]. simpl.
  destruct (d =? 48)%N eqn:H48.
  - apply N.eqb_eq in H48 as ->. intros Hscan.
    apply (scan_float_follows rest NZero); [reflexivity|reflexivity|exact Hscan].
  - destruct (is_digit d) eqn:Hd; [|discriminate].
    intros Hscan.
    destruct (digit_cases d Hd) as [->|[->|[->|[->|[->|[->|[->|[->|[->| ->]]]]]]]]];
      try discriminate H48;
      apply (scan_float_follows rest NInt); try reflexivity; exact Hscan.
Qed.

Lemma parseFloat_literal (lit : jsstring) (n : number) :
  number_of_literal lit = Some n ->
  literal (trim_start lit) = Some n.
Proof.
  unfold number_of_literal.
  destruct lit as [|c rest]; [discriminate|]. simpl.
  destruct (c =? 45)%N eqn:H45.
  - apply N.eqb_eq in H45 as ->. intros Hscan. simpl.
    apply scan_float_signed. exact Hscan.
  - destruct (c =? 48)%N eqn:H48.
    + apply N.eqb_eq in H48 as ->. intros Hscan. simpl.
      apply (scan_float_follows rest NZero); [reflexivity|reflexivity|exact Hscan].
    + destruct (is_digit c) eqn:Hd; [|discriminate].
      intros Hscan.
      destruct (digit_cases c Hd) as [->|[->|[->|[->|[->|[->|[->|[->|[->| ->]]]]]]]]];
        try discriminate H48;
        apply (scan_float_follows rest NInt); try reflexivity; exact Hscan.
Qed.

(** ** The scanner on what JSON.stringify writes *)

(** quote_unit as a chain of tests *)
Lemma quote_unit_cases (c : code_unit) :
  quote_unit c =
    if (c =? 8)%N then str "\b"
    else if (c =? 9)%N then str "\t"
    else if (c =? 10)%N then str "\n"
    else if (c =? 12)%N then str "\f"
    else if (c =? 13)%N then str "\r"
    else if (c =? 34)%N then [92; 34]%N
    else if (c =? 92)%N then [92; 92]%N
    else if (c <? 32)%N || is_high_surrogate c || is_low_surrogate c
         then unicode_escape c else [c].
Proof.
  destruct c as [|p]; [reflexivity|].
  do 7 (destruct p as [p|p|]; try reflexivity).
Qed.

Lemma hex_value_digit (x : N) : (x < 16)%N -> hex_value (hex_digit x) = Some x.
Proof.
  intros Hx. unfold hex_digit, hex_value.
  destruct (x <? 10)%N eqn:H10; units.
  - replace ((48 <=? 48 + x) && (48 + x <=? 57))%N with true.
    + f_equal. lia.
    + symmetry. apply andb_true_iff. split; apply N.leb_le; lia.
  - replace ((48 <=? 87 + x) && (87 + x <=? 57))%N with false.
    + replace ((65 <=? 87 + x) && (87 + x <=? 70))%N with false.
      * replace ((97 <=? 87 + x) && (87 + x <=? 102))%N with true.
        -- f_equal. lia.
        -- symmetry. apply andb_true_iff. split; apply N.leb_le; lia.
      * symmetry. apply andb_false_iff. right. apply N.leb_gt. lia.
    + symmetry. apply andb_false_iff. right. apply N.leb_gt. lia.
Qed.

Lemma hex4_value (c : code_unit) :
  (c < 65536)%N ->
  ((c / 4096) mod 16 * 4096 + (c / 256) mod 16 * 256 + (c / 16) mod 16 * 16 + c mod 16 = c)%N.
Proof. intros Hc. zify. Z.to_euclidean_division_equations. lia. Qed.

Lemma lex_unicode_escape (c : code_unit) acc toks rest :
  (c < 65536)%N ->
  lex_from (LString acc) toks (unicode_escape c ++ rest)
  = lex_from (LString (c :: acc)) toks rest.
Proof.
  intros Hc. unfold unicode_escape, hex4. simpl.
  do 4 (unfold unicode_step at 1;
        rewrite hex_value_digit by (apply N.mod_lt; discriminate); simpl).
  rewrite hex4_value by exact Hc. reflexivity.
Qed.

Lemma lex_plain_unit (c : code_unit) acc toks rest :
  (c =? 34)%N = false -> (c =? 92)%N = false -> (c <? 32)%N = false ->
  lex_from (LString acc) toks (c :: rest) = lex_from (LString (c :: acc)) toks rest.
Proof. intros H34 H92 H32. simpl. rewrite H34, H92, H32. reflexivity. Qed.

Lemma lex_quote_unit (c : code_unit) acc toks rest :
  lex_from (LString acc) toks (quote_unit c ++ rest)
  = lex_from (LString (c :: acc)) toks rest.
Proof.
  rewrite quote_unit_cases.
  repeat match goal with
         | |- context [if (c =? ?k)%N then _ else _] =>
             destruct (c =? k)%N eqn:?;
             [match goal with H : (c =? _)%N = true |- _ =>
                apply N.eqb_eq in H; subst c; reflexivity end|]
         end.
  destruct ((c <? 32)%N || is_high_surrogate c || is_low_surrogate c) eqn:Hesc.
  - apply lex_unicode_escape. units; lia.
  - apply orb_false_iff in Hesc as [Hesc _]. apply orb_false_iff in Hesc as [H32 _].
    apply lex_plain_unit; assumption.
Qed.

Lemma lex_surrogate_pair (c d : code_unit) acc toks rest :
  is_high_surrogate c && is_low_surrogate d = true ->
  lex_from (LString acc) toks (c :: d :: rest)
  = lex_from (LString (d :: c :: acc)) toks rest.
Proof.
  intros Hpair.
  rewrite !lex_plain_unit; [reflexivity|..]; units;
    first [apply N.eqb_neq | apply N.ltb_ge]; lia.
Qed.

Lemma lex_quote_units (s : jsstring) :
  forall acc toks rest,
    lex_from (LString acc) toks (quote_units s ++ rest)
    = lex_from (LString (rev s ++ acc)) toks rest.
Proof.
  remember (length s) as len eqn:Hlen.
  revert s Hlen. induction len as [len IH] using lt_wf_ind.
  intros s Hlen acc toks rest.
  destruct s as [|c [|d s']].
  - reflexivity.
  - simpl. apply lex_quote_unit.
  - change (quote_units (c :: d :: s'))
      with (if is_high_surrogate c && is_low_surrogate d
            then c :: d :: quote_units s'
            else quote_unit c ++ quote_units (d :: s')).
    destruct (is_high_surrogate c && is_low_surrogate d) eqn:Hpair.
    + change ((c :: d :: quote_units s') ++ rest) with (c :: d :: quote_units s' ++ rest).
      rewrite lex_surrogate_pair by exact Hpair.
      rewrite (IH (length s')) by (simpl in Hlen; lia || reflexivity).
      simpl. rewrite <- !app_assoc. reflexivity.
    + rewrite <- app_assoc, lex_quote_unit.
      rewrite (IH (length (d :: s'))) by (simpl in *; lia || reflexivity).
      simpl. rewrite <- !app_assoc. reflexivity.
Qed.

Lemma lex_quote (s : jsstring) toks rest :
  lex_from LDefault toks (quote s ++ rest) = lex_from LDefault (TString s :: toks) rest.
Proof.
  unfold quote. rewrite <- !app_assoc.
  change ([34%N] ++ quote_units s ++ [34%N] ++ rest)
    with (34%N :: quote_units s ++ 34%N :: rest).
  change (lex_from LDefault toks (34%N :: quote_units s ++ 34%N :: rest))
    with (lex_from (LString []) toks (quote_units s ++ 34%N :: rest)).
  rewrite lex_quote_units. simpl. rewrite app_nil_r, rev_involutive. reflexivity.
Qed.

Lemma lex_word (w : jsstring) (t : token) toks rest :
  forallb is_lower w = true -> w <> [] ->
  word_token w = Some t -> delimited rest ->
  lex_from LDefault toks (w ++ rest) = lex_from LDefault (t :: toks) rest.
Proof.
  intros Hw Hne Ht Hrest.
  destruct w as [|c w]; [contradiction|]. clear Hne.
  simpl in Hw. apply andb_true_iff in Hw as [Hc Hw].
  assert (lex_from LDefault toks ((c :: w) ++ rest)
          = lex_from (LWord [c]) toks (w ++ rest)) as ->.
  { simpl. unfold default_step.
    assert (is_whitespace c = false) as -> by (units; repeat (apply orb_false_iff; split); apply N.eqb_neq; lia).
    repeat match goal with
           | |- context [(c =? ?k)%N] =>
               replace (c =? k)%N with false by (symmetry; units; apply N.eqb_neq; lia)
           end.
    assert (is_digit c = false) as -> by (units; apply andb_false_iff; right; apply N.leb_gt; lia).
    simpl. rewrite Hc. reflexivity. }
  assert (forall acc, lex_from (LWord acc) toks (w ++ rest)
                      = lex_from (LWord (rev w ++ acc)) toks rest) as Hacc.
  { clear Ht. induction w as [|d w IH]; intros acc; [reflexivity|].
    simpl in Hw. apply andb_true_iff in Hw as [Hd Hw].
    simpl. rewrite Hd. rewrite IH by exact Hw. rewrite <- app_assoc. reflexivity. }
  rewrite Hacc.
  assert (rev (rev w ++ [c]) = c :: w) as Hrev
    by (rewrite rev_app_distr, rev_involutive; reflexivity).
  destruct rest as [|d rest]; simpl.
  - rewrite Hrev, Ht. reflexivity.
  - destruct Hrest as [Hl _]. rewrite Hl. simpl. rewrite Hrev, Ht. reflexivity.
Qed.

Lemma scan_number_chars (lit : jsstring) :
  forall st a n, scan_number st a lit = Some n -> forallb is_number_char lit = true.
Proof.
  induction lit as [|c rest IH]; intros st a n Hscan; [reflexivity|].
  simpl. apply andb_true_iff.
  destruct st; simpl in Hscan;
    repeat match type of Hscan with
           | (if ?t then _ else _) = _ => destruct t eqn:?
           end;
    try discriminate Hscan;
    (split; [|eapply IH; exact Hscan]);
    unfold is_number_char;
    try match goal with
        | H : (c =? 48)%N = true |- _ => apply N.eqb_eq in H; subst c; reflexivity
        end;
    repeat match goal with
           | H : _ = true |- _ => rewrite H
           end; rewrite ?orb_true_r; reflexivity.
Qed.

Lemma lex_number_chars (lit : jsstring) toks rest :
  forall acc,
    forallb is_number_char lit = true ->
    lex_from (LNumber acc) toks (lit ++ rest)
    = lex_from (LNumber (rev lit ++ acc)) toks rest.
Proof.
  induction lit as [|c lit IH]; intros acc Hlit; [reflexivity|].
  simpl in Hlit. apply andb_true_iff in Hlit as [Hc Hlit].
  simpl. rewrite Hc. rewrite IH by exact Hlit. rewrite <- app_assoc. reflexivity.
Qed.

Lemma lex_number (lit : jsstring) (n : number) toks rest :
  number_of_literal lit = Some n -> delimited rest ->
  lex_from LDefault toks (lit ++ rest) = lex_from LDefault (TNumber n :: toks) rest.
Proof.
  intros Hn Hrest.
  pose proof (scan_number_chars _ _ _ _ Hn) as Hchars.
  destruct lit as [|c lit]; [discriminate|].
  simpl in Hchars. apply andb_true_iff in Hchars as [_ Hchars].
  assert (lex_from LDefault toks ((c :: lit) ++ rest)
          = lex_from (LNumber [c]) toks (lit ++ rest)) as ->.
  { assert (is_digit c || (c =? 45)%N = true) as Hfirst.
    { unfold number_of_literal in Hn. simpl in Hn.
      destruct (c =? 45)%N; [apply orb_true_r|].
      destruct (c =? 48)%N eqn:H48;
        [apply N.eqb_eq in H48; subst c; reflexivity|].
      destruct (is_digit c); [reflexivity|discriminate]. }
    simpl. unfold default_step.
    assert (is_whitespace c = false) as ->.
    { units; repeat (apply orb_false_iff; split); apply N.eqb_neq; lia. }
    repeat match goal with
           | |- context [if (c =? ?k)%N then _ else _] =>
               replace (c =? k)%N with false by (symmetry; units; apply N.eqb_neq; lia)
           end.
    rewrite Hfirst. reflexivity. }
  rewrite lex_number_chars by exact Hchars.
  assert (rev (rev lit ++ [c]) = c :: lit) as Hrev
    by (rewrite rev_app_distr, rev_involutive; reflexivity).
  destruct rest as [|d rest]; simpl.
  - rewrite Hrev, Hn. reflexivity.
  - destruct Hrest as [_ Hd]. rewrite Hd. simpl. rewrite Hrev, Hn. reflexivity.
Qed.

Lemma jsval_nested_ind (P : jsval -> Prop) :
  P VUndefined -> P VNull -> (forall b, P (VBool b)) -> (forall n, P (VNum n)) ->
  (forall s, P (VStr s)) ->
  (forall items, Forall P items -> P (VArr items)) ->
  (forall members, Forall (fun kx => P (snd kx)) members -> P (VObj members)) ->
  forall v, P v.
Proof.
  intros Hu Hn Hb Hnum Hs Ha Ho.
  fix IH 1. intros [| |b|n|s|items|members].
  - exact Hu.
  - exact Hn.
  - apply Hb.
  - apply Hnum.
  - apply Hs.
  - apply Ha. induction items as [|x items IHitems]; constructor; [apply IH|exact IHitems].
  - apply Ho. induction members as [|[k x] members IHm]; constructor; [apply IH|exact IHm].
Qed.

Lemma join_separated (sep : jsstring) (parts : list jsstring) :
  join sep parts = separated sep parts.
Proof.
  induction parts as [|p [|q rest] IH]; try reflexivity.
  change (join sep (p :: q :: rest)) with (p ++ sep ++ join sep (q :: rest)).
  rewrite IH. reflexivity.
Qed.

Lemma separated_cons {A} (sep p : list A) (rest : list (list A)) :
  separated sep (p :: rest) = p ++ concat (map (fun q => sep ++ q) rest).
Proof.
  revert p. induction rest as [|q rest IH]; intros p.
  - simpl. rewrite app_nil_r. reflexivity.
  - change (separated sep (p :: q :: rest)) with (p ++ sep ++ separated sep (q :: rest)).
    rewrite IH. simpl. rewrite <- !app_assoc. reflexivity.
Qed.

Lemma delimited_comma_tail (texts : list jsstring) (rest : jsstring) :
  delimited rest -> delimited (concat (map (fun q => [44%N] ++ q) texts) ++ rest).
Proof. intros Hrest. destruct texts; simpl; [exact Hrest|split; reflexivity]. Qed.

Lemma lexes_comma_tail (texts : list jsstring) (tokss : list (list token)) :
  Forall2 lexes_to texts tokss ->
  lexes_to (concat (map (fun q => [44%N] ++ q) texts))
           (concat (map (fun q => [TComma] ++ q) tokss)).
Proof.
  induction 1 as [|text tks texts tokss Hone _ IH]; intros toks rest Hrest.
  - reflexivity.
  - change (lex_from LDefault toks
              (concat (map (fun q => [44%N] ++ q) (text :: texts)) ++ rest))
      with (lex_from LDefault (TComma :: toks)
              ((text ++ concat (map (fun q => [44%N] ++ q) texts)) ++ rest)).
    rewrite <- app_assoc.
    rewrite Hone by (apply delimited_comma_tail; exact Hrest).
    rewrite IH by exact Hrest.
    change (concat (map (fun q => [TComma] ++ q) (tks :: tokss)))
      with (TComma :: tks ++ concat (map (fun q => [TComma] ++ q) tokss)).
    simpl rev. rewrite !rev_app_distr. rewrite <- !app_assoc. reflexivity.
Qed.

Lemma lexes_separated (texts : list jsstring) (tokss : list (list token)) :
  Forall2 lexes_to texts tokss ->
  lexes_to (separated ([44%N]) texts) (separated [TComma] tokss).
Proof.
  intros Hall. destruct Hall as [|text tks texts tokss Hone Hrest].
  - intros toks rest _. reflexivity.
  - rewrite (separated_cons [TComma] tks tokss).
    unfold jsstring, code_unit in *. rewrite (separated_cons (A:=N) [44%N] text texts). intros toks rest Hd.
    rewrite <- app_assoc.
    rewrite Hone by (apply delimited_comma_tail; exact Hd).
    rewrite (lexes_comma_tail _ _ Hrest) by exact Hd.
    rewrite rev_app_distr, <- app_assoc. reflexivity.
Qed.

Lemma lexes_brackets (inner : jsstring) (tks : list token) :
  lexes_to inner tks ->
  lexes_to ([91%N] ++ inner ++ [93%N]) (TLBracket :: tks ++ [TRBracket]).
Proof.
  intros Hin toks rest Hrest. rewrite <- !app_assoc.
  change (lex_from LDefault toks ([91%N] ++ inner ++ [93%N] ++ rest))
    with (lex_from LDefault (TLBracket :: toks) (inner ++ [93%N] ++ rest)).
  rewrite Hin by (split; reflexivity).
  simpl. rewrite rev_app_distr. simpl. rewrite <- app_assoc. reflexivity.
Qed.

Lemma lexes_braces (inner : jsstring) (tks : list token) :
  lexes_to inner tks ->
  lexes_to ([123%N] ++ inner ++ [125%N]) (TLBrace :: tks ++ [TRBrace]).
Proof.
  intros Hin toks rest Hrest. rewrite <- !app_assoc.
  change (lex_from LDefault toks ([123%N] ++ inner ++ [125%N] ++ rest))
    with (lex_from LDefault (TLBrace :: toks) (inner ++ [125%N] ++ rest)).
  rewrite Hin by (split; reflexivity).
  simpl. rewrite rev_app_distr. simpl. rewrite <- app_assoc. reflexivity.
Qed.

Lemma lexes_member (k : jsstring) (text : jsstring) (tks : list token) :
  lexes_to text tks ->
  lexes_to (quote k ++ [58%N] ++ text) (TString k :: TColon :: tks).
Proof.
  intros Hin toks rest Hrest. rewrite <- !app_assoc.
  rewrite lex_quote.
  change (lex_from LDefault (TString k :: toks) ([58%N] ++ text ++ rest))
    with (lex_from LDefault (TColon :: TString k :: toks) (text ++ rest)).
  rewrite Hin by exact Hrest.
  simpl. rewrite <- !app_assoc. reflexivity.
Qed.

Lemma number_eqb_eq (x y : number) : number_eqb x y = true -> x = y.
Proof.
  destruct x as [|a|m e], y as [|b|m' e']; simpl; try discriminate; try reflexivity.
  - intros Hab. apply Bool.eqb_prop in Hab. congruence.
  - intros Hme. apply andb_true_iff in Hme as [Hm He].
    apply Z.eqb_eq in Hm, He. congruence.
Qed.

Lemma canonical_number_literal (n : number) :
  canonical_number n = true ->
  number_of_literal (Number.to_string n) = Some n /\ Number.is_finite n = true.
Proof.
  unfold canonical_number. intros Hn.
  destruct (number_of_literal (Number.to_string n)) as [n'|] eqn:Hlit; [|discriminate].
  apply number_eqb_eq in Hn as <-. split; [reflexivity|].
  destruct n as [|[|]|m e]; try discriminate Hlit; reflexivity.
Qed.

Lemma serialize_lexes (v : jsval) :
  canonical v = true ->
  Stringify.serialize v = Some (text_of v) /\ lexes_to (text_of v) (tokens_of v).
Proof.
  induction v as [| |b|n|s|items IH|members IH] using jsval_nested_ind; intros Hv.
  - discriminate.
  - split; [reflexivity|]. intros toks rest Hrest.
    apply (lex_word (str "null")); auto; discriminate.
  - destruct b; (split; [reflexivity|]); intros toks rest Hrest.
    + apply (lex_word (str "true")); auto; discriminate.
    + apply (lex_word (str "false")); auto; discriminate.
  - simpl in Hv. apply canonical_number_literal in Hv as [Hlit Hfin].
    unfold text_of. simpl. rewrite Hfin. split; [reflexivity|].
    intros toks rest Hrest. apply lex_number; assumption.
  - split; [reflexivity|]. intros toks rest Hrest. apply lex_quote.
  - simpl in Hv.
    assert (Forall2 lexes_to (map text_of items) (map tokens_of items)) as Hall.
    { apply Forall2_fmap, Forall_Forall2_diag.
      rewrite forallb_forall in Hv. rewrite Forall_forall in IH |- *.
      intros x Hx. apply IH; [exact Hx|]. apply Hv. apply list_elem_of_In. exact Hx. }
    unfold text_of at 1 2. cbn [Stringify.serialize].
    change (fun x => match Stringify.serialize x with Some t => t | None => str "null" end)
      with text_of.
    rewrite join_separated. split; [reflexivity|].
    change (lexes_to ([91%N] ++ separated [44%N] (map text_of items) ++ [93%N])
              (TLBracket :: separated [TComma] (map tokens_of items) ++ [TRBracket])).
    apply lexes_brackets, lexes_separated, Hall.
  - simpl in Hv. apply andb_true_iff in Hv as [Hv _].
    assert (omap (fun kx => match Stringify.serialize (snd kx) with
                            | Some t => Some (quote (fst kx) ++ str ":" ++ t)
                            | None => None
                            end) members
            = map (fun kx => quote (fst kx) ++ str ":" ++ text_of (snd kx)) members) as Homap.
    { induction members as [|[k x] members IHm]; [reflexivity|].
      simpl in Hv. apply andb_true_iff in Hv as [Hx Hv].
      inversion IH as [|? ? Hhead Htail]; subst.
      destruct (Hhead Hx) as [Hser _]. simpl in Hser |- *.
      rewrite Hser. simpl. f_equal. apply IHm; assumption. }
    assert (Forall2 lexes_to
              (map (fun kx => quote (fst kx) ++ [58%N] ++ text_of (snd kx)) members)
              (map (fun kx => TString (fst kx) :: TColon :: tokens_of (snd kx)) members))
      as Hall.
    { apply Forall2_fmap, Forall_Forall2_diag.
      rewrite forallb_forall in Hv. rewrite Forall_forall in IH |- *.
      intros kx Hkx. apply lexes_member, IH; [exact Hkx|].
      apply Hv. apply list_elem_of_In. exact Hkx. }
    unfold text_of at 1 2. cbn [Stringify.serialize]. rewrite Homap, join_separated.
    split; [reflexivity|].
    change (lexes_to
              ([123%N] ++ separated [44%N]
                 (map (fun kx => quote (fst kx) ++ [58%N] ++ text_of (snd kx)) members)
                 ++ [125%N])
              (TLBrace :: separated [TComma]
                 (map (fun kx => TString (fst kx) :: TColon :: tokens_of (snd kx)) members)
                 ++ [TRBrace])).
    apply lexes_braces, lexes_separated, Hall.
Qed.

(** *** members in enumeration order are rebuilt as they stand *)

Lemma keys_ordered_app (a b : list jsstring) :
  keys_ordered (a ++ b) = true ->
  keys_ordered a = true /\ keys_ordered b = true /\
  Forall (fun x => Forall (fun y => key_before x y = true) b) a.
Proof.
  induction a as [|x a IH]; simpl; intros Hord.
  - repeat split; [exact Hord|constructor].
  - apply andb_true_iff in Hord as [Hx Hord].
    rewrite forallb_app in Hx. apply andb_true_iff in Hx as [Hxa Hxb].
    destruct (IH Hord) as (Ha & Hb & Hab).
    rewrite Hxa, Ha. repeat split; [exact Hb|].
    constructor; [|exact Hab].
    apply Forall_forall. intros y Hy. rewrite forallb_forall in Hxb.
    apply Hxb. apply list_elem_of_In. exact Hy.
Qed.

Lemma insert_index_append (i : Z) (k : jsstring) (v : jsval) (pre : list (jsstring * jsval)) :
  Forall (fun p => exists j, array_index (fst p) = Some j /\ j < i) pre ->
  insert_index i k v pre = pre ++ [(k, v)].
Proof.
  induction 1 as [|[k' x] pre (j & Hj & Hlt) _ IH]; [reflexivity|].
  simpl in *. rewrite Hj.
  destruct (j <? i)%Z eqn:Hji; [|apply Z.ltb_ge in Hji; lia].
  rewrite IH. reflexivity.
Qed.

Lemma define_member_append (k : jsstring) (v : jsval) (pre : list (jsstring * jsval)) :
  Forall (fun p => key_before (fst p) k = true) pre ->
  define_member k v pre = pre ++ [(k, v)].
Proof.
  intros Hpre. unfold define_member.
  assert (has_key k pre = false) as ->.
  { unfold has_key. apply not_true_is_false. intros Hex.
    apply existsb_exists in Hex as (p & Hin & Heq).
    rewrite Forall_forall in Hpre.
    specialize (Hpre p (proj2 (list_elem_of_In _ _) Hin)).
    unfold key_before in Hpre. rewrite Heq in Hpre. discriminate. }
  destruct (array_index k) as [i|] eqn:Hk; [|reflexivity].
  apply insert_index_append.
  eapply Forall_impl; [exact Hpre|]. intros p Hp. simpl in Hp.
  unfold key_before in Hp. rewrite Hk in Hp.
  apply andb_true_iff in Hp as [_ Hp].
  destruct (array_index (fst p)) as [j|]; [|discriminate].
  exists j. split; [reflexivity|]. apply Z.ltb_lt. exact Hp.
Qed.

Lemma foldl_define_member (members pre : list (jsstring * jsval)) :
  keys_ordered (map fst (pre ++ members)) = true ->
  foldl (fun acc kx => define_member (fst kx) (snd kx) acc) pre members = pre ++ members.
Proof.
  revert pre. induction members as [|[k x] members IH]; intros pre Hord; simpl.
  - rewrite app_nil_r. reflexivity.
  - rewrite define_member_append.
    + rewrite IH; rewrite <- app_assoc; [reflexivity|exact Hord].
    + rewrite map_app in Hord. apply keys_ordered_app in Hord as (_ & _ & Hall).
      apply Forall_forall. intros p Hp.
      rewrite Forall_forall in Hall.
      specialize (Hall (fst p) (list_elem_of_fmap_2 fst _ _ Hp)).
      inversion Hall; subst. assumption.
Qed.

(** *** the parser on the tokens of a value *)

Lemma parse_array_open (x : jsval) (stk : list context) (rest : list token) :
  canonical x = true ->
  parse_from (PArrayOpen stk) (tokens_of x ++ rest)
  = parse_from (PValue (InArray [] :: stk)) (tokens_of x ++ rest).
Proof. destruct x as [| |[|]| | | |]; try discriminate; reflexivity. Qed.

Lemma parse_array_loop (more : list jsval) (stk : list context) (rest : list token) :
  Forall parses more ->
  forall acc x,
    parse_from (PAfter x (InArray acc :: stk))
      (concat (map (fun q => [TComma] ++ q) (map tokens_of more)) ++ TRBracket :: rest)
    = parse_from (PAfter (VArr (rev acc ++ x :: more)) stk) rest.
Proof.
  induction 1 as [|y more Hy _ IH]; intros acc x.
  - reflexivity.
  - change (parse_from (PAfter x (InArray acc :: stk))
              (concat (map (fun q => [TComma] ++ q) (map tokens_of (y :: more)))
                 ++ TRBracket :: rest))
      with (parse_from (PValue (InArray (x :: acc) :: stk))
              ((tokens_of y ++ concat (map (fun q => [TComma] ++ q) (map tokens_of more)))
                 ++ TRBracket :: rest)).
    rewrite <- app_assoc, Hy, IH. simpl. rewrite <- app_assoc. reflexivity.
Qed.

Lemma parse_object_loop (more : list (jsstring * jsval)) (stk : list context)
    (rest : list token) :
  Forall (fun kx => parses (snd kx)) more ->
  forall ms k x,
    parse_from (PAfter x (InObject ms k :: stk))
      (concat (map (fun q => [TComma] ++ q)
                 (map (fun kx => TString (fst kx) :: TColon :: tokens_of (snd kx)) more))
         ++ TRBrace :: rest)
    = parse_from
        (PAfter (VObj (foldl (fun acc kx => define_member (fst kx) (snd kx) acc)
                         (define_member k x ms) more)) stk) rest.
Proof.
  induction 1 as [|[k' y] more Hy _ IH]; intros ms k x.
  - reflexivity.
  - change (parse_from (PAfter x (InObject ms k :: stk))
              (concat (map (fun q => [TComma] ++ q)
                         (map (fun kx => TString (fst kx) :: TColon :: tokens_of (snd kx))
                              ((k', y) :: more)))
                 ++ TRBrace :: rest))
      with (parse_from (PValue (InObject (define_member k x ms) k' :: stk))
              ((tokens_of y
                  ++ concat (map (fun q => [TComma] ++ q)
                               (map (fun kx => TString (fst kx) :: TColon :: tokens_of (snd kx))
                                    more)))
                 ++ TRBrace :: rest)).
    rewrite <- app_assoc. simpl in Hy. rewrite Hy, IH. reflexivity.
Qed.

Lemma tokens_parse (v : jsval) : canonical v = true -> parses v.
Proof.
  induction v as [| |b|n|s|items IH|members IH] using jsval_nested_ind; intros Hv.
  - discriminate.
  - intros stk rest. reflexivity.
  - intros stk rest. destruct b; reflexivity.
  - intros stk rest. reflexivity.
  - intros stk rest. reflexivity.
  - simpl in Hv. rewrite forallb_forall in Hv.
    assert (Forall parses items) as Hall.
    { rewrite Forall_forall in IH |- *. intros x Hx. apply IH; [exact Hx|].
      apply Hv, list_elem_of_In, Hx. }
    intros stk rest. destruct items as [|x more]; [reflexivity|].
    inversion Hall as [|? ? Hx Hmore]; subst.
    cbn [tokens_of].
    change (map tokens_of (x :: more)) with (tokens_of x :: map tokens_of more).
    rewrite (separated_cons [TComma]).
    change (parse_from (PValue stk)
              ((TLBracket
                  :: (tokens_of x ++ concat (map (fun q => [TComma] ++ q) (map tokens_of more)))
                     ++ [TRBracket]) ++ rest))
      with (parse_from (PArrayOpen stk)
              (((tokens_of x ++ concat (map (fun q => [TComma] ++ q) (map tokens_of more)))
                  ++ [TRBracket]) ++ rest)).
    rewrite <- !app_assoc.
    rewrite parse_array_open by (apply Hv; left; reflexivity).
    rewrite Hx. change ([TRBracket] ++ rest) with (TRBracket :: rest).
    rewrite parse_array_loop by exact Hmore. reflexivity.
  - simpl in Hv. apply andb_true_iff in Hv as [Hv Hord]. rewrite forallb_forall in Hv.
    assert (Forall (fun kx => parses (snd kx)) members) as Hall.
    { rewrite Forall_forall in IH |- *. intros kx Hkx. apply IH; [exact Hkx|].
      apply Hv, list_elem_of_In, Hkx. }
    intros stk rest. destruct members as [|[k x] more]; [reflexivity|].
    inversion Hall as [|? ? Hx Hmore]; subst. simpl in Hx.
    cbn [tokens_of].
    change (map (fun kx => TString (fst kx) :: TColon :: tokens_of (snd kx)) ((k, x) :: more))
      with ((TString k :: TColon :: tokens_of x)
              :: map (fun kx => TString (fst kx) :: TColon :: tokens_of (snd kx)) more).
    rewrite (separated_cons [TComma]).
    change (parse_from (PValue stk)
              ((TLBrace
                  :: ((TString k :: TColon :: tokens_of x)
                        ++ concat (map (fun q => [TComma] ++ q)
                                     (map (fun kx => TString (fst kx) :: TColon
                                                       :: tokens_of (snd kx)) more)))
                     ++ [TRBrace]) ++ rest))
      with (parse_from (PValue (InObject [] k :: stk))
              (((tokens_of x
                   ++ concat (map (fun q => [TComma] ++ q)
                                (map (fun kx => TString (fst kx) :: TColon
                                                  :: tokens_of (snd kx)) more)))
                  ++ [TRBrace]) ++ rest)).
    rewrite <- !app_assoc. rewrite Hx. change ([TRBrace] ++ rest) with (TRBrace :: rest).
    rewrite parse_object_loop by exact Hmore.
    change (foldl (fun acc kx => define_member (fst kx) (snd kx) acc)
              (define_member k x []) more)
      with (foldl (fun acc kx => define_member (fst kx) (snd kx) acc) [] ((k, x) :: more)).
    rewrite foldl_define_member by exact Hord. reflexivity.
Qed.

Lemma parse_stringify (v : jsval) :
  canonical v = true ->
  exists text, JSON_stringify v = VStr text /\ JSON_parse (VStr text) = Normal v.
Proof.
  intros Hv. destruct (serialize_lexes v Hv) as [Hser Hlex].
  exists (text_of v). unfold JSON_stringify, JSON_parse. rewrite Hser.
  split; [reflexivity|]. simpl ToString. unfold parse_text, lex.
  specialize (Hlex [] [] I). rewrite !app_nil_r in Hlex. rewrite Hlex.
  simpl. rewrite rev_involutive.
  pose proof (tokens_parse v Hv [] []) as Hparse. rewrite app_nil_r in Hparse.
  rewrite Hparse. reflexivity.
Qed.

(** *** integers print and parse back *)

Lemma str_app (a b : string) : str (a +:+ b) = str a ++ str b.
Proof.
  unfold str. induction a as [|c a IH]; simpl; [reflexivity|].
  f_equal. exact IH.
Qed.

Lemma string_app_assoc (a b c : string) : (a +:+ b) +:+ c = a +:+ b +:+ c.
Proof.
  induction a as [|x a IH]; [reflexivity|].
  change (String x ((a +:+ b) +:+ c) = String x (a +:+ b +:+ c)).
  rewrite IH. reflexivity.
Qed.

Lemma pretty_N_go_app (x : N) : forall s, pretty_N_go x s = pretty_N_go x "" +:+ s.
Proof.
  induction (N.lt_wf_0 x) as [x _ IH]. intros s.
  destruct (decide (0 < x)%N) as [Hx|Hx].
  - rewrite !(pretty_N_go_step x) by exact Hx.
    rewrite IH by (apply N.div_lt; lia).
    rewrite (IH (x `div` 10)%N (N.div_lt x 10 Hx eq_refl) (String _ "")).
    rewrite string_app_assoc. reflexivity.
  - replace x with 0%N by lia. reflexivity.
Qed.

Lemma digit_char (d : N) : (d < 10)%N -> N_of_ascii (pretty_N_char d) = (48 + d)%N.
Proof.
  intros Hd.
  assert (d = 0 \/ d = 1 \/ d = 2 \/ d = 3 \/ d = 4 \/ d = 5 \/ d = 6 \/ d = 7 \/ d = 8 \/ d = 9)%N
    as Hcases by lia.
  destruct Hcases as [->|[->|[->|[->|[->|[->|[->|[->|[->| ->]]]]]]]]]; reflexivity.
Qed.

Lemma digits_of_step (x : N) :
  (0 < x)%N -> digits_of x = digits_of (x `div` 10) ++ [(48 + x `mod` 10)%N].
Proof.
  intros Hx. unfold digits_of. rewrite pretty_N_go_step by exact Hx.
  rewrite pretty_N_go_app, str_app.
  f_equal. unfold str. simpl. rewrite digit_char by (apply N.mod_lt; discriminate).
  reflexivity.
Qed.

Lemma digits_of_0 : digits_of 0 = [].
Proof. reflexivity. Qed.

Lemma scan_digits (x : N) :
  (0 < x)%N ->
  forall st a rest,
    st = NStart \/ st = NMinus -> n_mant a = 0 ->
    scan_number st a (digits_of x ++ rest) = scan_number NInt (with_mantissa a x) rest.
Proof.
  induction (N.lt_wf_0 x) as [x _ IH]. intros Hx st a rest Hst Ha.
  rewrite digits_of_step by exact Hx. rewrite <- app_assoc.
  pose proof (N.div_mod x 10 ltac:(discriminate)) as Hdm.
  assert (x `mod` 10 < 10)%N as Hd by (apply N.mod_lt; discriminate).
  set (d := (x `mod` 10)%N) in *. set (q := (x `div` 10)%N) in *.
  assert (is_digit (48 + d)%N = true) as Hdigit.
  { unfold is_digit. apply andb_true_iff. split; apply N.leb_le; lia. }
  assert (digit_value (48 + d)%N = Z.of_N d) as Hval.
  { unfold digit_value. lia. }
  destruct (decide (0 < q)%N) as [Hq|Hq].
  - rewrite (IH q) by (auto; lia).
    simpl. rewrite Hdigit. f_equal.
    unfold push_int, with_mantissa. simpl. rewrite Hval. f_equal. lia.
  - assert (q = 0)%N as Hzero by lia.
    rewrite Hzero, digits_of_0. simpl app.
    assert ((48 + d =? 48)%N = false) as H48 by (apply N.eqb_neq; lia).
    assert ((48 + d =? 45)%N = false) as H45 by (apply N.eqb_neq; lia).
    destruct Hst as [-> | ->]; simpl; rewrite ?H45, H48, Hdigit; f_equal;
      unfold push_int, with_mantissa; simpl; rewrite Hval, Ha; f_equal; lia.
Qed.

Lemma digits_of_length (n : nat) :
  forall x, (x < 10 ^ N.of_nat n)%N -> (length (digits_of x) <= n)%nat.
Proof.
  induction n as [|n IH]; intros x Hx.
  - replace x with 0%N by (simpl in Hx; lia). simpl. lia.
  - destruct (decide (0 < x)%N) as [Hpos|Hzero].
    + rewrite digits_of_step by exact Hpos. rewrite length_app. simpl.
      assert (x `div` 10 < 10 ^ N.of_nat n)%N as Hq.
      { apply N.Div0.div_lt_upper_bound.
        replace (N.of_nat (S n)) with (N.succ (N.of_nat n)) in Hx by lia.
        rewrite N.pow_succ_r' in Hx. exact Hx. }
      specialize (IH _ Hq). lia.
    + replace x with 0%N by lia. simpl. lia.
Qed.

Lemma drop_zeros_spec (l : jsstring) :
  forall d rs d',
    Number.drop_zeros l d = (rs, d') ->
    d <= d' /\ l = replicate (Z.to_nat (d' - d)) 48%N ++ rs.
Proof.
  induction l as [|c l IH]; intros d rs d' Hdrop.
  - injection Hdrop as <- <-. rewrite Z.sub_diag. split; [lia|reflexivity].
  - destruct (decide (c = 48%N)) as [->|Hc].
    + simpl in Hdrop. apply IH in Hdrop as [Hle ->]. split; [lia|].
      replace (Z.to_nat (d' - d)) with (S (Z.to_nat (d' - (d + 1)))) by lia.
      reflexivity.
    + assert (Number.drop_zeros (c :: l) d = (c :: l, d)) as Hstop.
      { destruct c as [|p]; [reflexivity|].
        do 6 (destruct p as [p|p|]; try reflexivity). contradiction. }
      rewrite Hstop in Hdrop. injection Hdrop as <- <-.
      rewrite Z.sub_diag. split; [lia|reflexivity].
Qed.

Lemma rev_replicate {A} (n : nat) (x : A) : rev (replicate n x) = replicate n x.
Proof.
  induction n as [|n IH]; [reflexivity|]. simpl. rewrite IH.
  clear IH. induction n as [|n IH]; [reflexivity|]. simpl. rewrite IH. reflexivity.
Qed.

Lemma positive_to_string_integer (m : Z) :
  (length (decimal m) <= 21)%nat ->
  Number.positive_to_string m 0 = decimal m.
Proof.
  intros Hlen. unfold Number.positive_to_string.
  destruct (Number.drop_zeros (rev (decimal m)) 0) as [rs dropped] eqn:Hdrop.
  apply drop_zeros_spec in Hdrop as [Hpos Hrev].
  rewrite Z.sub_0_r in Hrev.
  assert (decimal m = rev rs ++ replicate (Z.to_nat dropped) 48%N) as Hdigits.
  { rewrite <- (rev_involutive (decimal m)), Hrev, rev_app_distr, rev_replicate.
    reflexivity. }
  assert (length (decimal m) = (length (rev rs) + Z.to_nat dropped)%nat) as Hl.
  { rewrite Hdigits at 1. rewrite length_app, length_replicate. reflexivity. }
  set (k := Z.of_nat (length (rev rs))) in *.
  assert ((k <=? k + 0 + dropped)%Z && (k + 0 + dropped <=? 21)%Z = true) as ->.
  { apply andb_true_iff. split; apply Z.leb_le; lia. }
  unfold Number.zeros. replace (k + 0 + dropped - k) with dropped by lia.
  symmetry. exact Hdigits.
Qed.

Lemma decimal_digits_of (z : Z) : 0 < z -> decimal z = digits_of (Z.to_N z).
Proof.
  intros Hz. unfold decimal, digits_of, pretty, pretty_N.
  destruct (decide (Z.to_N z = 0%N)) as [Hzero|_]; [lia|reflexivity].
Qed.

Lemma integer_literal (z : Z) :
  Z.abs z < 10 ^ 21 ->
  number_of_literal (Number.to_string (Dec z 0)) = Some (Dec z 0).
Proof.
  intros Hz.
  assert (forall m, 0 < m -> m < 10 ^ 21 ->
            Number.positive_to_string m 0 = digits_of (Z.to_N m)) as Hprint.
  { intros m Hpos Hm. rewrite positive_to_string_integer; rewrite decimal_digits_of by exact Hpos.
    - reflexivity.
    - apply (digits_of_length 21). change (10 ^ N.of_nat 21)%N with (Z.to_N (10 ^ 21)). lia. }
  unfold Number.to_string.
  destruct (z =? 0)%Z eqn:Hzero; [apply Z.eqb_eq in Hzero as ->; reflexivity|].
  apply Z.eqb_neq in Hzero.
  destruct (z <? 0)%Z eqn:Hneg.
  - apply Z.ltb_lt in Hneg.
    rewrite Hprint by lia. unfold number_of_literal.
    change (scan_number NStart
              {| n_neg := false; n_mant := 0; n_scale := 0; n_eneg := false; n_exp := 0 |}
              (str "-" ++ digits_of (Z.to_N (- z))))
      with (scan_number NMinus
              {| n_neg := true; n_mant := 0; n_scale := 0; n_eneg := false; n_exp := 0 |}
              (digits_of (Z.to_N (- z)))).
    rewrite <- (app_nil_r (digits_of _)).
    rewrite scan_digits by (auto; lia).
    simpl. unfold num_value. simpl. f_equal. f_equal. lia.
  - apply Z.ltb_ge in Hneg.
    rewrite Hprint by lia. unfold number_of_literal.
    rewrite <- (app_nil_r (digits_of _)).
    rewrite scan_digits by (auto; lia).
    simpl. unfold num_value. simpl. f_equal. f_equal. lia.
Qed.

Lemma number_eqb_refl (n : number) : number_eqb n n = true.
Proof.
  destruct n as [|[|]|m e]; try reflexivity.
  simpl. rewrite !Z.eqb_refl. reflexivity.
Qed.

Lemma integer_canonical (z : Z) :
  Z.abs z < 10 ^ 21 -> canonical (VNum (Dec z 0)) = true.
Proof.
  intros Hz. simpl. unfold canonical_number.
  rewrite integer_literal by exact Hz. apply number_eqb_refl.
Qed.

(** * Further properties: what replies and values come to *)

(** A lone number literal is a JSON text. *)
Lemma JSON_parse_number_literal (s : jsstring) (n : number) :
  number_of_literal s = Some n -> JSON_parse (VStr s) = Normal (VNum n).
Proof.
  intros Hn. unfold JSON_parse, parse_text, lex. simpl ToString.
  rewrite <- (app_nil_r s).
  rewrite (lex_number s n [] [] Hn I). reflexivity.
Qed.

(** Quoting never shortens a string. *)
Lemma quote_unit_length (c : code_unit) : (1 <= length (quote_unit c))%nat.
Proof.
  rewrite quote_unit_cases.
  repeat match goal with
         | |- context [if ?t then _ else _] => destruct t
         end; vm_compute; lia.
Qed.

Lemma quote_units_length (s : jsstring) : (length s <= length (quote_units s))%nat.
Proof.
  remember (length s) as len eqn:Hlen. revert s Hlen.
  induction len as [len IH] using lt_wf_ind. intros s Hlen.
  destruct s as [|c [|d s']].
  - simpl in *. lia.
  - subst len. pose proof (quote_unit_length c). cbn [length quote_units] in *. lia.
  - change (quote_units (c :: d :: s'))
      with (if is_high_surrogate c && is_low_surrogate d
            then c :: d :: quote_units s'
            else quote_unit c ++ quote_units (d :: s')).
    destruct (is_high_surrogate c && is_low_surrogate d).
    + specialize (IH (length s') ltac:(subst len; simpl; lia) s' eq_refl).
      subst len. cbn [length] in *. lia.
    + specialize (IH (length (d :: s')) ltac:(subst len; simpl; lia) (d :: s') eq_refl).
      pose proof (quote_unit_length c).
      rewrite length_app. subst len. cbn [length] in *. lia.
Qed.

(** X7. What the two numeric methods make of a reply.  They send the operand
    as given and read the reply with [parseFloat]: the promise is fulfilled
    with a number whatever the reply, never rejected for it, and with NaN
    for a null reply.  For a reply that is a JSON number the result is the
    number JSON.parse reads from the same text, and an integer reply below
    10^21 in size gives that integer. *)
Theorem numeric_methods_read_a_float `{Transport} (h : handle) (key path operand : jsval) :
  exists marshal,
    sends_one (jsonNumincrby (constructor h) key path operand) h
      (text_command "JSON.NUMINCRBY" [Arg key; Arg path; Arg operand]) marshal /\
    sends_one (jsonNummultby (constructor h) key path operand) h
      (text_command "JSON.NUMMULTBY" [Arg key; Arg path; Arg operand]) marshal /\
    (forall r, exists n, marshal (Fulfilled r) = Fulfilled (VNum n)) /\
    marshal (Fulfilled RNil) = Fulfilled (VNum NaN) /\
    (forall s n,
       number_of_literal s = Some n ->
       marshal (Fulfilled (RBulk s)) = Fulfilled (VNum n) /\
       JSON_parse (VStr s) = Normal (VNum n)) /\
    (forall z, Z.abs z < 10 ^ 21 ->
       marshal (Fulfilled (RInt z)) = Fulfilled (VNum (Dec z 0))).
Proof.
  exists (fun p => promise_then p (fun result => Normal (parseFloat (val result)))).
  split; [apply facade_sends_one; in_table|].
  split; [apply facade_sends_one; in_table|].
  split; [|split; [reflexivity|split]].
  - intros r. simpl. unfold parseFloat.
    destruct (literal _); eauto.
  - intros s n Hn. split; [|apply JSON_parse_number_literal; exact Hn].
    simpl. unfold parseFloat. simpl ToString.
    rewrite (parseFloat_literal s n Hn). reflexivity.
  - intros z Hz. cbv beta iota delta [promise_then].
    change (val (RInt z)) with (VNum (Dec z 0)). unfold parseFloat.
    change (ToString (VNum (Dec z 0))) with (Number.to_string (Dec z 0)).
    rewrite (parseFloat_literal _ _ (integer_literal z Hz)). reflexivity.
Qed.

(** X8. What jsonSet sends, jsonGet reads back.  For a value JSON.parse can
    build, jsonSet sends a text as its third argument, and jsonGet, given
    that text as the reply, is fulfilled with the value itself. *)
Theorem set_then_get_round_trip `{Transport} (h : handle) (key path value : jsval) :
  canonical value = true ->
  exists text marshal_set marshal_get,
    sends_one (jsonSet (constructor h) key path value) h
      (text_command "JSON.SET" [Arg key; Arg path; Arg (VStr text)]) marshal_set /\
    sends_one (jsonGet (constructor h) key path) h
      (text_command "JSON.GET" [Arg key; Arg path]) marshal_get /\
    marshal_get (Fulfilled (RBulk text)) = Fulfilled value.
Proof.
  intros Hv. destruct (parse_stringify value Hv) as (text & Htext & Hparse).
  exists text. eexists _, (fun p => promise_then p (fun v => JSON_parse (val v))).
  split; [|split].
  - unfold jsonSet. rewrite Htext. apply facade_sends_one. in_table.
  - apply facade_sends_one. in_table.
  - simpl. rewrite Hparse. reflexivity.
Qed.

Lemma set_then_get_round_trip_witness :
  let value :=
    VObj [(str "7", VNum (Dec (-12) 0));
          (str "name", VStr (str "a\b" ++ [10; 34; 55357; 233]%N));
          (str "tags", VArr [VNull; VBool true; VNum (Dec 15 (-1)); VObj []; VArr []])] in
  exists text marshal_set marshal_get,
    @sends_one (recording (always (RBulk (str "OK"))))
      (jsonSet (constructor 1%nat) (VStr (str "doc")) (VStr (str ".")) value) 1%nat
      (text_command "JSON.SET" [Arg (VStr (str "doc")); Arg (VStr (str ".")); Arg (VStr text)])
      marshal_set /\
    @sends_one (recording (always (RBulk (str "OK"))))
      (jsonGet (constructor 1%nat) (VStr (str "doc")) (VStr (str "."))) 1%nat
      (text_command "JSON.GET" [Arg (VStr (str "doc")); Arg (VStr (str "."))]) marshal_get /\
    marshal_get (Fulfilled (RBulk text)) = Fulfilled value.
Proof.
  apply (@set_then_get_round_trip (recording (always (RBulk (str "OK")))) 1%nat).
  vm_compute. reflexivity.
Defined.

(** X9. What the array methods send for an element, jsonArrpop reads back.
    For elements JSON.parse can build, jsonArrappend and jsonArrinsert send
    one text per element after the fixed arguments, and jsonArrpop, given
    the text of an element as the reply, is fulfilled with that element. *)
Theorem appended_elements_pop_back `{Transport} (h : handle) (key path index : jsval)
    (elements : list jsval) :
  Forall (fun element => canonical element = true) elements ->
  exists texts marshal_pop,
    sends_one (jsonArrappend (constructor h) (key :: path :: elements)) h
      (text_command "JSON.ARRAPPEND"
         ([Arg key; Arg path] ++ map (fun text => Arg (VStr text)) texts)) as_value /\
    sends_one (jsonArrinsert (constructor h) (key :: path :: index :: elements)) h
      (text_command "JSON.ARRINSERT"
         ([Arg key; Arg path; Arg index] ++ map (fun text => Arg (VStr text)) texts))
      as_value /\
    (forall popped, sends_one (jsonArrpop (constructor h) key path popped) h
       (text_command "JSON.ARRPOP" [Arg key; Arg path; Arg popped]) marshal_pop) /\
    Forall2 (fun text element => marshal_pop (Fulfilled (RBulk text)) = Fulfilled element)
            texts elements.
Proof.
  intros Hall.
  assert (exists texts,
            map JSON_stringify elements = map VStr texts /\
            Forall2 (fun text element => JSON_parse (VStr text) = Normal element)
                    texts elements) as (texts & Htexts & Hback).
  { induction Hall as [|element elements Hel _ (texts & Htexts & Hback)].
    - exists []. split; [reflexivity|constructor].
    - destruct (parse_stringify element Hel) as (text & Htext & Hparse).
      exists (text :: texts). split; [simpl; rewrite Htext, Htexts; reflexivity|].
      constructor; assumption. }
  exists texts, (fun p => promise_then p (fun result => JSON_parse (val result))).
  split; [|split; [|split]].
  - pose proof (jsonArrappend_any h (key :: path :: elements)) as Hsend.
    simpl in Hsend. rewrite drop_0, Htexts, map_map in Hsend. exact Hsend.
  - pose proof (jsonArrinsert_any h (key :: path :: index :: elements)) as Hsend.
    simpl in Hsend. rewrite drop_0, Htexts, map_map in Hsend. exact Hsend.
  - intros popped. apply facade_sends_one. in_table.
  - eapply Forall2_impl; [exact Hback|].
    intros text element Hparse. simpl. rewrite Hparse. reflexivity.
Qed.

Lemma appended_elements_pop_back_witness :
  let elements := [VNum (Dec 3 0); VStr (str "three"); VArr [VNull; VBool false];
                   VObj [(str "0", VNull); (str "k", VNum (Dec 25 (-2)))]] in
  exists texts marshal_pop,
    @sends_one (recording (always (RInt 4)))
      (jsonArrappend (constructor 1%nat) (VStr (str "doc") :: VStr (str ".l") :: elements))
      1%nat
      (text_command "JSON.ARRAPPEND"
         ([Arg (VStr (str "doc")); Arg (VStr (str ".l"))]
            ++ map (fun text => Arg (VStr text)) texts)) as_value /\
    @sends_one (recording (always (RInt 4)))
      (jsonArrinsert (constructor 1%nat)
         (VStr (str "doc") :: VStr (str ".l") :: VNum (Dec 0 0) :: elements)) 1%nat
      (text_command "JSON.ARRINSERT"
         ([Arg (VStr (str "doc")); Arg (VStr (str ".l")); Arg (VNum (Dec 0 0))]
            ++ map (fun text => Arg (VStr text)) texts)) as_value /\
    (forall popped,
       @sends_one (recording (always (RInt 4)))
         (jsonArrpop (constructor 1%nat) (VStr (str "doc")) (VStr (str ".l")) popped) 1%nat
         (text_command "JSON.ARRPOP" [Arg (VStr (str "doc")); Arg (VStr (str ".l")); Arg popped])
         marshal_pop) /\
    Forall2 (fun text element => marshal_pop (Fulfilled (RBulk text)) = Fulfilled element)
            texts elements.
Proof.
  apply (@appended_elements_pop_back (recording (always (RInt 4))) 1%nat).
  repeat constructor.
Defined.

(** X10. A string operand is always sent quoted.  For every string,
    jsonStrappend and jsonArrindex send a JSON string literal: it begins and
    ends with a quotation mark, so it is never the string itself, and
    JSON.parse reads the string back from it. *)
Theorem string_operands_are_quoted `{Transport} (h : handle) (key path : jsval)
    (s : jsstring) :
  exists body,
    sends_one (jsonStrappend (constructor h) key path (VStr s)) h
      (text_command "JSON.STRAPPEND"
         [Arg key; Arg path; Arg (VStr ([34%N] ++ body ++ [34%N]))]) as_value /\
    sends_one (jsonArrindex (constructor h) key path (VStr s)) h
      (text_command "JSON.ARRINDEX"
         [Arg key; Arg path; Arg (VStr ([34%N] ++ body ++ [34%N]))]) as_value /\
    JSON_parse (VStr ([34%N] ++ body ++ [34%N])) = Normal (VStr s) /\
    (length s <= length body)%nat.
Proof.
  exists (quote_units s).
  split; [apply facade_sends_one; in_table|].
  split; [apply facade_sends_one; in_table|].
  split.
  - destruct (parse_stringify (VStr s) eq_refl) as (text & Htext & Hparse).
    injection Htext as <-. exact Hparse.
  - apply quote_units_length.
Qed.

(** Which representations the round trip is about. *)
Example canonical_values :
  canonical (VObj [(str "2", VNull); (str "10", VNum (Dec 15 (-1))); (str "b", VArr [])])
    = true /\
  canonical (VNum (Dec 15 21)) = true /\
  canonical (VNum (Dec 1 2)) = false /\
  canonical (VNum (Dec 100 0)) = true /\
  canonical (VNum NaN) = false /\
  canonical (VArr [VUndefined]) = false /\
  canonical (VObj [(str "b", VNull); (str "2", VNull)]) = false /\
  canonical (VObj [(str "b", VNull); (str "b", VNull)]) = false.
Proof. repeat split; vm_compute; reflexivity. Qed.
